(** * RAGForge: the vector store manager and the chunkers

    A shallow embedding of [src/database/chroma_client.py] (the class
    [ChromaDBManager]) and of [src/chunking/chunking.py] (the chunker
    classes), with the properties their specification states.

    The manager is a thin layer over two collaborators that are not part of
    the repository: Python's [pathlib] and the [chromadb] client.  The file
    keeps the two apart from the manager's own code:

    - [Module Py] holds what is Python: values, exceptions, the binding of
      the arguments of a call to the parameters of the callee; [Module Fs]
      holds [pathlib]'s [mkdir].
    - [Module Chroma] holds the client: a database is a finite map from
      collection names to the records of each collection, in insertion
      order.  What the client does inside a collection ([add], [query],
      [get], [delete], [update]) is a parameter, the record [engine]; only
      the parameter names of each method are fixed, since the manager calls
      every method by keyword.
    - the manager's methods follow, one definition per method of the
      source, in the order of the source. *)

From Stdlib Require Import ZArith QArith Lia.
From stdpp Require Import base option list gmap strings pretty.

(** ** Python *)

Module Py.

(** The values that cross the boundary between the manager and the client:
    [None], [str], [int], [float] (carried as a rational, no arithmetic is
    done on it here), [bool], [list] and [dict] (insertion ordered). *)
#[warnings="-register-all"]
Inductive value : Type :=
  | VNone
  | VStr (s : string)
  | VInt (z : Z)
  | VNum (q : Q)
  | VBool (b : bool)
  | VList (l : list value)
  | VDict (d : list (string * value)).

(** An exception is its class and its message. *)
Record exn : Type := Exn { exn_class : string; exn_msg : string }.

Definition TypeError (msg : string) : exn := Exn "TypeError" msg.
Definition ValueError (msg : string) : exn := Exn "ValueError" msg.
Definition FileExistsError (msg : string) : exn := Exn "FileExistsError" msg.
Definition FileNotFoundError (msg : string) : exn := Exn "FileNotFoundError" msg.
Definition NotADirectoryError (msg : string) : exn := Exn "NotADirectoryError" msg.

(** A call returns a value or raises. *)
Inductive outcome (A : Type) : Type :=
  | Ret (a : A)
  | Raise (e : exn).
Arguments Ret {A} a.
Arguments Raise {A} e.

Definition returns {A} (o : outcome A) : bool :=
  match o with Ret _ => true | Raise _ => false end.

Definition raises_class {A} (cls : string) (o : outcome A) : bool :=
  match o with
  | Ret _ => false
  | Raise e => bool_decide (exn_class e = cls)
  end.

(** Stateful code: a computation over a state [S] returns an outcome and the
    state it leaves.  An exception keeps the state reached when it was
    raised: nothing is rolled back. *)
Definition M (S A : Type) : Type := S → outcome A * S.

Definition ret {S A} (a : A) : M S A := λ s, (Ret a, s).
Definition bind {S A B} (m : M S A) (k : A → M S B) : M S B :=
  λ s, match m s with
       | (Ret a, s') => k a s'
       | (Raise e, s') => (Raise e, s')
       end.
Definition gets {S A} (f : S → A) : M S A := λ s, (Ret (f s), s).
Definition modify {S} (f : S → S) : M S unit := λ s, (Ret tt, f s).

Global Instance M_ret {S} : MRet (M S) := λ A, ret.
Global Instance M_bind {S} : MBind (M S) := λ A B k m, bind m k.

(** *** Calls

    A callee declares its parameters in order: the required ones, then the
    ones with a default.  None of the callees below takes a variable
    number of positional or keyword arguments. *)
Record signature : Type := Sig {
  sig_name : string;
  sig_required : list string;
  sig_optional : list string;
}.

Definition sig_params (sg : signature) : list string :=
  sig_required sg ++ sig_optional sg.

(** The first keyword of the call, in the order of the call, that the callee
    cannot take: one it does not declare, or one that names a parameter
    already filled by position. *)
Fixpoint keyword_error (sg : signature) (filled : list string)
    (kw : list (string * value)) : option exn :=
  match kw with
  | [] => None
  | (k, _) :: kw' =>
      if bool_decide (k ∉ sig_params sg) then
        Some (TypeError (sig_name sg +:+
                "() got an unexpected keyword argument '" +:+ k +:+ "'"))
      else if bool_decide (k ∈ filled) then
        Some (TypeError (sig_name sg +:+
                "() got multiple values for argument '" +:+ k +:+ "'"))
      else keyword_error sg filled kw'
  end.

(** The first required parameter that the call leaves without a value. *)
Fixpoint missing_required (required : list string) (given : list string)
  : option string :=
  match required with
  | [] => None
  | p :: required' =>
      if bool_decide (p ∈ given) then missing_required required' given else Some p
  end.

(** Binding the arguments of a call to the parameters, in the order the
    interpreter follows: the positional arguments fill the parameters from
    the first on; each keyword is matched against the parameters; then the
    number of positional arguments is checked, then the required parameters.
    Each failure is a [TypeError], raised before the body of the callee
    runs.  (The messages are shortened.) *)
Definition bind_arguments (sg : signature) (args : list value)
    (kw : list (string * value)) : outcome (list (string * value)) :=
  let filled := take (length args) (sig_params sg) in
  match keyword_error sg filled kw with
  | Some e => Raise e
  | None =>
      if bool_decide (length (sig_params sg) < length args) then
        Raise (TypeError (sig_name sg +:+ "() takes too many positional arguments"))
      else
        match missing_required (sig_required sg) (filled ++ kw.*1) with
        | Some p =>
            Raise (TypeError (sig_name sg +:+
                     "() missing 1 required positional argument: '" +:+ p +:+ "'"))
        | None => Ret (zip filled args ++ kw)
        end
  end.

(** The value bound to a parameter; the default [None] when the call gave
    none. *)
Fixpoint argument (p : string) (bound : list (string * value)) : value :=
  match bound with
  | [] => VNone
  | (k, v) :: bound' => if bool_decide (k = p) then v else argument p bound'
  end.

End Py.

(** ** The file system, as [pathlib] sees it *)

Module Fs.
Import Py.

(** A path is the list of its components, innermost first: the parent of a
    path is its tail, and the empty list is the anchor the path is taken
    from (the working directory or the root), which is a directory and is
    its own parent.  [Path(persist_directory)] and [str(...)] convert between
    this and the text of the path; links, permissions and full disks are
    left out. *)
Abbreviation path := (list string).

Inductive node : Type := Dir | File.

Global Instance node_eq_dec : EqDecision node.
Proof. solve_decision. Defined.

(** The tree maps the paths that exist to what they are. *)
Abbreviation tree := (gmap (list string) node).

Definition kind_of (t : tree) (p : path) : option node :=
  match p with
  | [] => Some Dir
  | _ :: _ => t !! p
  end.

(** [Path.is_dir()] *)
Definition is_dir (t : tree) (p : path) : bool :=
  bool_decide (kind_of t p = Some Dir).

(** [os.mkdir(p)]: the parent is resolved first ([ENOENT] when it is missing,
    [ENOTDIR] when it is not a directory), then the name is created unless
    it is taken ([EEXIST]). *)
Definition os_mkdir (p : path) : M tree unit := λ t,
  match p with
  | [] => (Raise (FileExistsError "File exists"), t)
  | _ :: parent =>
      match kind_of t parent with
      | None => (Raise (FileNotFoundError "No such file or directory"), t)
      | Some File => (Raise (NotADirectoryError "Not a directory"), t)
      | Some Dir =>
          match t !! p with
          | Some _ => (Raise (FileExistsError "File exists"), t)
          | None => (Ret tt, <[p := Dir]> t)
          end
      end
  end.

(** [Path.mkdir(parents=False, exist_ok=exist_ok)]: the missing parent is an
    error; another [OSError] is dropped when [exist_ok] holds and the path is
    a directory. *)
Definition mkdir_here (exist_ok : bool) (p : path) : M tree unit := λ t,
  match os_mkdir p t with
  | (Ret u, t') => (Ret u, t')
  | (Raise e, t') =>
      if bool_decide (exn_class e = "FileNotFoundError") then (Raise e, t')
      else if negb exist_ok || negb (is_dir t' p) then (Raise e, t')
      else (Ret tt, t')
  end.

(** [Path.mkdir(parents, exist_ok)], as [pathlib] writes it:
<<
    try: os.mkdir(self, mode)
    except FileNotFoundError:
        if not parents or self.parent == self: raise
        self.parent.mkdir(parents=True, exist_ok=True)
        self.mkdir(mode, parents=False, exist_ok=exist_ok)
    except OSError:
        if not exist_ok or not self.is_dir(): raise
>> *)
Fixpoint mkdir (parents exist_ok : bool) (p : path) : M tree unit := λ t,
  match os_mkdir p t with
  | (Ret u, t') => (Ret u, t')
  | (Raise e, t') =>
      if bool_decide (exn_class e = "FileNotFoundError") then
        match p with
        | [] => (Raise e, t')
        | _ :: parent =>
            if negb parents then (Raise e, t')
            else
              match mkdir true true parent t' with
              | (Ret _, t'') => mkdir_here exist_ok p t''
              | (Raise e', t'') => (Raise e', t'')
              end
        end
      else if negb exist_ok || negb (is_dir t' p) then (Raise e, t')
      else (Ret tt, t')
  end.

(** Nothing but absence stands in the way of creating [p]: none of [p] and
    its ancestors is something else than a directory. *)
Fixpoint unobstructed (t : tree) (p : path) : Prop :=
  match p with
  | [] => True
  | _ :: parent => t !! p ≠ Some File ∧ unobstructed t parent
  end.

Global Instance unobstructed_dec t p : Decision (unobstructed t p).
Proof. induction p; simpl; apply _. Defined.

(** [t'] keeps everything of [t] and adds only directories on the way to
    [p]. *)
Definition grows_towards (p : path) (t t' : tree) : Prop :=
  t ⊆ t' ∧ ∀ q, t !! q = None → is_Some (t' !! q) → t' !! q = Some Dir ∧ q `suffix_of` p.

End Fs.

(** ** The chromadb client

    The client is a third-party package: the repository holds none of its
    code.  What is fixed here is the shape of its state and the collection
    lifecycle, both as the specification describes them (a collection is a
    named, persistent set of chunks, created lazily on first use; a reset
    collection is recreated empty; switching does not lose the prior
    collection; [count] is the current size), and the parameter names of
    the methods the manager calls.  What happens to the records inside
    [add], [query], [get], [delete] and [update] is left to the [engine], a
    parameter of everything below. *)

Module Chroma.
Import Py.

(** Modelled from the spec: a stored chunk, with its id, text, embedding and
    metadata, each as the value the caller gave. *)
Record record : Type := Record_ {
  rec_id : string;
  rec_document : value;
  rec_embedding : value;
  rec_metadata : value;
}.

(** Modelled from the spec: the state of the client, which the sources do
    not hold.  A collection is a named set of chunks: its records, oldest
    first; a database maps the names of its collections to them. *)
Abbreviation collection := (list record).
Abbreviation database := (gmap string (list record)).

Definition ids_of (rs : collection) : list string := rec_id <$> rs.

(** The part of the client taken as a parameter. *)
Record engine : Type := Engine {
  (** the names [get_or_create_collection] accepts *)
  valid_name : string → bool;
  (** the bodies of the methods of a collection, run on the bound arguments;
      the ones that write return the records the collection holds
      afterwards *)
  coll_add : list (string * value) → collection → outcome collection;
  coll_query : list (string * value) → collection → outcome value;
  coll_get : list (string * value) → collection → outcome value;
  coll_delete : list (string * value) → collection → outcome collection;
  coll_update : list (string * value) → collection → outcome collection;
}.

(** The parameters of the methods, as the package declares them (they are
    not in the sources; the manager names them in its calls). *)
Definition get_or_create_collection_sig : signature :=
  Sig "get_or_create_collection" ["name"]
      ["configuration"; "metadata"; "embedding_function"; "data_loader"].
Definition delete_collection_sig : signature :=
  Sig "delete_collection" ["name"] [].
Definition list_collections_sig : signature :=
  Sig "list_collections" [] ["limit"; "offset"].
Definition count_sig : signature := Sig "count" [] [].
Definition add_sig : signature :=
  Sig "add" ["ids"] ["embeddings"; "metadatas"; "documents"; "images"; "uris"].
Definition query_sig : signature :=
  Sig "query" []
      ["query_embeddings"; "query_texts"; "query_images"; "query_uris"; "ids";
       "n_results"; "where"; "where_document"; "include"].
Definition get_sig : signature :=
  Sig "get" [] ["ids"; "where"; "limit"; "offset"; "where_document"; "include"].
Definition delete_sig : signature :=
  Sig "delete" [] ["ids"; "where"; "where_document"].
Definition update_sig : signature :=
  Sig "update" ["ids"] ["embeddings"; "metadatas"; "documents"; "images"; "uris"].

Definition no_collection (name : string) : exn :=
  ValueError ("Collection " +:+ name +:+ " does not exist.").

Section Client.
Context (E : engine).

(** Modelled from the spec: [client.get_or_create_collection(...)], missing
    from the sources.  A collection is created lazily on first use: the call
    answers with the collection of that name, made empty when the database
    has none, and touches no other.  The handle it returns is the name; the
    [metadata] of the collection (its description) is not kept in the state,
    no method of the manager reads it. *)
Definition get_or_create_collection (args : list value)
    (kw : list (string * value)) : M database string := λ db,
  match bind_arguments get_or_create_collection_sig args kw with
  | Raise e => (Raise e, db)
  | Ret bound =>
      match argument "name" bound with
      | VStr name =>
          if valid_name E name then
            match db !! name with
            | Some _ => (Ret name, db)
            | None => (Ret name, <[name := []]> db)
            end
          else (Raise (ValueError ("Invalid collection name " +:+ name)), db)
      | _ => (Raise (ValueError "Expected collection name to be a string"), db)
      end
  end.

(** Modelled from the spec: [client.delete_collection(name)], missing from
    the sources.  All the chunks of the collection are destroyed with it; a
    name the database does not hold is an error. *)
Definition delete_collection (args : list value)
    (kw : list (string * value)) : M database unit := λ db,
  match bind_arguments delete_collection_sig args kw with
  | Raise e => (Raise e, db)
  | Ret bound =>
      match argument "name" bound with
      | VStr name =>
          match db !! name with
          | Some _ => (Ret tt, delete name db)
          | None => (Raise (no_collection name), db)
          end
      | _ => (Raise (ValueError "Expected collection name to be a string"), db)
      end
  end.

(** Modelled from the spec: [client.list_collections()], missing from the
    sources: the names of the collections. *)
Definition list_collections (args : list value)
    (kw : list (string * value)) : M database (list string) := λ db,
  match bind_arguments list_collections_sig args kw with
  | Raise e => (Raise e, db)
  | Ret _ => (Ret (map_to_list db).*1, db)
  end.

(** A method of the collection behind the handle [h]: the arguments are
    bound first, then the collection is looked up, then the body, which is
    the engine's, runs.  A body that raises leaves the records as they
    were. *)
Definition read_method {A} (sg : signature) (body : list (string * value) → collection → outcome A)
    (h : string) (args : list value) (kw : list (string * value)) : M database A := λ db,
  match bind_arguments sg args kw with
  | Raise e => (Raise e, db)
  | Ret bound =>
      match db !! h with
      | None => (Raise (no_collection h), db)
      | Some rs => (body bound rs, db)
      end
  end.

Definition write_method (sg : signature)
    (body : list (string * value) → collection → outcome collection)
    (h : string) (args : list value) (kw : list (string * value)) : M database unit := λ db,
  match bind_arguments sg args kw with
  | Raise e => (Raise e, db)
  | Ret bound =>
      match db !! h with
      | None => (Raise (no_collection h), db)
      | Some rs =>
          match body bound rs with
          | Ret rs' => (Ret tt, <[h := rs']> db)
          | Raise e => (Raise e, db)
          end
      end
  end.

(** Modelled from the spec: [collection.count()], missing from the sources:
    the current size of the collection. *)
Definition count : string → list value → list (string * value) → M database nat :=
  read_method count_sig (λ _ rs, Ret (length rs)).
(** The other methods of a collection are the engine's. *)
Definition add := write_method add_sig (coll_add E).
Definition query := read_method query_sig (coll_query E).
Definition get := read_method get_sig (coll_get E).
Definition delete := write_method delete_sig (coll_delete E).
Definition update := write_method update_sig (coll_update E).

End Client.
End Chroma.

(** ** The manager: [src/database/chroma_client.py] *)

Import Py.

(** What persists: the file system, and under each directory a client was
    opened on, the database kept there. *)
Record World : Type := MkWorld {
  files : Fs.tree;
  disk : gmap (list string) (gmap string (list Chroma.record));
}.

(** The attributes of a [ChromaDBManager].  [client] is the directory the
    client was opened on and [collection] the handle of a collection of that
    client. *)
Record ChromaDBManager : Type := MkManager {
  persist_directory : Fs.path;
  collection_name : string;
  client : Fs.path;
  collection : string;
}.

(** The state a method runs in: the object and the world. *)
Record state : Type := MkState {
  self : ChromaDBManager;
  world : World;
}.

Definition set_files (t : Fs.tree) (w : World) : World :=
  {| files := t; disk := disk w |}.
Definition set_disk (d : gmap (list string) (gmap string (list Chroma.record)))
    (w : World) : World :=
  {| files := files w; disk := d |}.
Definition set_collection_name (name : string) (m : ChromaDBManager) : ChromaDBManager :=
  {| persist_directory := persist_directory m; collection_name := name;
     client := client m; collection := collection m |}.
Definition set_collection (h : string) (m : ChromaDBManager) : ChromaDBManager :=
  {| persist_directory := persist_directory m; collection_name := collection_name m;
     client := client m; collection := h |}.

(** The database a client works on. *)
Definition database_at (w : World) (p : Fs.path) : gmap string (list Chroma.record) :=
  default ∅ (disk w !! p).

(** File-system code runs on the files of the world. *)
Definition on_files {A} (m : M Fs.tree A) : M World A := λ w,
  let '(o, t) := m (files w) in (o, set_files t w).

(** [chromadb.PersistentClient(path=..., settings=...)]: opens the database
    kept under the directory, an empty one when there is none yet.  The
    settings the manager passes (no telemetry, [allow_reset]) bear on none
    of the methods it calls. *)
Definition PersistentClient (p : Fs.path) : M World Fs.path := λ w,
  (Ret p, set_disk (<[p := database_at w p]> (disk w)) w).

(** A method of the client [c] runs on the database under its directory,
    which the client has opened. *)
Definition on_client {A} (c : Fs.path) (m : M (gmap string (list Chroma.record)) A)
  : M World A := λ w,
  match disk w !! c with
  | None => (Raise (ValueError "Could not connect to the database"), w)
  | Some db => let '(o, db') := m db in (o, set_disk (<[c := db']> (disk w)) w)
  end.

(** A method of [self.client] or of [self.collection], from inside a method
    of the manager. *)
Definition on_self_client {A} (m : M (gmap string (list Chroma.record)) A)
  : M state A := λ st,
  let '(o, w) := on_client (client (self st)) m (world st) in
  (o, {| self := self st; world := w |}).

Definition on_self_collection {A}
    (m : string → M (gmap string (list Chroma.record)) A) : M state A := λ st,
  let '(o, w) := on_client (client (self st)) (m (collection (self st))) (world st) in
  (o, {| self := self st; world := w |}).

Definition description : list (string * value) :=
  [("description", VStr "Storage for document chunks and embeddings")].

Definition default_persist_directory : Fs.path := ["chroma_db"].
Definition default_collection_name : string := "document_chunks".
Definition default_n_results : Z := 10.

Section Manager.
Context (E : Chroma.engine).

(** [ChromaDBManager.__init__] *)
Definition init (persist_directory : Fs.path) (collection_name : string)
  : M World ChromaDBManager :=
  _ ← on_files (Fs.mkdir true true persist_directory);
  client ← PersistentClient persist_directory;
  collection ← on_client client
    (Chroma.get_or_create_collection E []
       [("name", VStr collection_name); ("metadata", VDict description)]);
  mret {| persist_directory := persist_directory; collection_name := collection_name;
          client := client; collection := collection |}.

(** [f"chunk_{start_id + i}" for i in range(len(chunks))] *)
Definition generated_ids (start_id : nat) (chunks : list string) : list string :=
  (λ i, "chunk_" +:+ pretty (start_id + i)) <$> seq 0 (length chunks).

Definition embedding_value (e : list Q) : value := VList (VNum <$> e).
Definition optional {A} (f : A → value) (o : option A) : value :=
  match o with None => VNone | Some a => f a end.

(** [ChromaDBManager.add_chunks] *)
Definition add_chunks (chunks : list string) (embeddings : list (list Q))
    (metadatas : option (list (list (string * value))))
    (ids : option (list string)) : M state unit :=
  ids ← match ids with
        | None =>
            start_id ← on_self_collection (λ h, Chroma.count h [] []);
            mret (generated_ids start_id chunks)
        | Some ids => mret ids
        end;
  on_self_collection (λ h, Chroma.add E h []
    [("ndocuments", VList (VStr <$> chunks));
     ("nembeddings", VList (embedding_value <$> embeddings));
     ("nmetadatas", optional (λ ms, VList (VDict <$> ms)) metadatas);
     ("nids", VList (VStr <$> ids))]).

(** [ChromaDBManager.query_similar] *)
Definition query_similar (query_embedding : list Q) (n_results : Z)
    (where_ where_document : option (list (string * value))) : M state value :=
  on_self_collection (λ h, Chroma.query E h []
    [("query_embeddings", VList [embedding_value query_embedding]);
     ("n_results", VInt n_results);
     ("where", optional VDict where_);
     ("where_document", optional VDict where_document)]).

(** [ChromaDBManager.get_chunks_by_ids] *)
Definition get_chunks_by_ids (ids : list string) : M state value :=
  on_self_collection (λ h, Chroma.get E h [] [("ids", VList (VStr <$> ids))]).

(** [ChromaDBManager.delete_chunks] *)
Definition delete_chunks (ids : list string) : M state unit :=
  on_self_collection (λ h, Chroma.delete E h [] [("ids", VList (VStr <$> ids))]).

(** [ChromaDBManager.count_chunks] *)
Definition count_chunks : M state nat :=
  on_self_collection (λ h, Chroma.count h [] []).

(** [ChromaDBManager.reset_collection] *)
Definition reset_collection : M state unit :=
  name ← gets (λ st, collection_name (self st));
  _ ← on_self_client (Chroma.delete_collection [VStr name] []);
  h ← on_self_client
    (Chroma.get_or_create_collection E []
       [("name", VStr name); ("metadata", VDict description)]);
  modify (λ st, {| self := set_collection h (self st); world := world st |}).

(** [ChromaDBManager.list_collections] *)
Definition list_collections : M state (list string) :=
  on_self_client (Chroma.list_collections [] []).

(** [ChromaDBManager.switch_collection] *)
Definition switch_collection (collection_name : string) : M state unit :=
  _ ← modify (λ st, {| self := set_collection_name collection_name (self st);
                       world := world st |});
  h ← on_self_client
    (Chroma.get_or_create_collection E []
       [("name", VStr collection_name); ("metadata", VDict description)]);
  modify (λ st, {| self := set_collection h (self st); world := world st |}).

(** [ChromaDBManager.update_chunk_metadata] *)
Definition update_chunk_metadata (ids : list string)
    (metadatas : list (list (string * value))) : M state unit :=
  on_self_collection (λ h, Chroma.update E h []
    [("ids", VList (VStr <$> ids)); ("metadatas", VList (VDict <$> metadatas))]).

End Manager.

(** ** The chunkers: [src/chunking/chunking.py] *)

Module Chunking.

Inductive chunker_class : Type :=
  | BaseChunker
  | ContextAwareChunking
  | LateChunking.

Definition default_model_name : string := "all-MiniLM-L6-v2".

Section Chunkers.
(** [sentence_transformers.SentenceTransformer(model_name)] is not part of the
    repository: loading a model returns it or raises. *)
Context {model : Type} (SentenceTransformer : string → outcome model).

(** An instance: its class and its only attribute. *)
Record chunker : Type := MkChunker {
  class_of : chunker_class;
  chunker_model : model;
}.

(** [BaseChunker.__init__], run for an instance of class [c] *)
Definition BaseChunker_init (c : chunker_class) (model_name : string)
  : outcome chunker :=
  match SentenceTransformer model_name with
  | Ret m => Ret {| class_of := c; chunker_model := m |}
  | Raise e => Raise e
  end.

(** [ContextAwareChunking.__init__]: [super().__init__(model_name)] *)
Definition ContextAwareChunking_init (model_name : string) : outcome chunker :=
  BaseChunker_init ContextAwareChunking model_name.

(** [LateChunking.__init__]: [super().__init__(model_name)] *)
Definition LateChunking_init (model_name : string) : outcome chunker :=
  BaseChunker_init LateChunking model_name.

(** [BaseChunker.cunk_document(self)], which the two subclasses inherit: it
    declares no parameter besides [self], and its body is [pass]. *)
Definition cunk_document_sig : signature := Sig "cunk_document" [] [].

Definition cunk_document (self : chunker) (args : list value)
    (kw : list (string * value)) : outcome value :=
  match bind_arguments cunk_document_sig args kw with
  | Raise e => Raise e
  | Ret _ => Ret VNone
  end.

End Chunkers.

(** A result that is a non-empty sequence. *)
Definition nonempty_sequence (o : outcome value) : bool :=
  match o with
  | Ret (VList (_ :: _)) => true
  | _ => false
  end.

End Chunking.

(** ** An engine to run the manager on

    The smallest engine that stores what it is given: [add] appends the
    records whose id is new, [delete] drops the listed ids, [update]
    replaces the metadata of the listed ids it finds, [get] and [query]
    answer with the ids they select, [query] without any ranking.  It makes
    no claim to be chromadb; it is there to run the definitions above. *)

Module ListEngine.
Import Chroma.

Definition strings_of (v : value) : list string :=
  match v with
  | VList l => omap (λ x, match x with VStr s => Some s | _ => None end) l
  | _ => []
  end.

Definition values_of (v : value) : list value :=
  match v with
  | VList l => l
  | _ => []
  end.

Fixpoint make_records (ids : list string) (docs embs metas : list value)
  : list record :=
  match ids with
  | [] => []
  | i :: ids' =>
      {| rec_id := i; rec_document := default VNone (head docs);
         rec_embedding := default VNone (head embs);
         rec_metadata := default VNone (head metas) |}
      :: make_records ids' (tail docs) (tail embs) (tail metas)
  end.

Definition add_body (bound : list (string * value)) (rs : collection)
  : outcome collection :=
  Ret (rs ++ filter (λ r, rec_id r ∉ ids_of rs)
               (make_records (strings_of (argument "ids" bound))
                  (values_of (argument "documents" bound))
                  (values_of (argument "embeddings" bound))
                  (values_of (argument "metadatas" bound)))).

Definition delete_body (bound : list (string * value)) (rs : collection)
  : outcome collection :=
  Ret (filter (λ r, rec_id r ∉ strings_of (argument "ids" bound)) rs).

Fixpoint new_metadata (ids : list string) (metas : list value) (i : string)
  : option value :=
  match ids with
  | [] => None
  | j :: ids' =>
      if bool_decide (i = j) then Some (default VNone (head metas))
      else new_metadata ids' (tail metas) i
  end.

Definition update_body (bound : list (string * value)) (rs : collection)
  : outcome collection :=
  Ret ((λ r, match new_metadata (strings_of (argument "ids" bound))
                     (values_of (argument "metadatas" bound)) (rec_id r) with
             | Some m => {| rec_id := rec_id r; rec_document := rec_document r;
                            rec_embedding := rec_embedding r; rec_metadata := m |}
             | None => r
             end) <$> rs).

Definition get_body (bound : list (string * value)) (rs : collection)
  : outcome value :=
  Ret (VDict [("ids", VList (VStr <$> ids_of
         (filter (λ r, rec_id r ∈ strings_of (argument "ids" bound)) rs)))]).

Definition query_body (bound : list (string * value)) (rs : collection)
  : outcome value :=
  match argument "n_results" bound with
  | VInt n => Ret (VDict [("ids", VList [VList (VStr <$> take (Z.to_nat n) (ids_of rs))])])
  | _ => Raise (ValueError "n_results must be an int")
  end.

Definition list_engine : engine :=
  {| valid_name := λ n, bool_decide (3 ≤ String.length n);
     coll_add := add_body;
     coll_query := query_body;
     coll_get := get_body;
     coll_delete := delete_body;
     coll_update := update_body |}.

End ListEngine.

(** ** The vocabulary of the properties *)

(** The records of collection [c] of the database kept under [p]. *)
Definition contents (w : World) (p : Fs.path) (c : string)
  : option (list Chroma.record) :=
  disk w !! p ≫= λ db, db !! c.

(** The records of the collection the manager is bound to. *)
Definition bound_records (st : state) : option (list Chroma.record) :=
  contents (world st) (client (self st)) (collection (self st)).

(** The manager is usable: its client is open, its collection exists, and the
    name it keeps is the name of that collection, one the engine accepts. *)
Definition usable (E : Chroma.engine) (st : state) : Prop :=
  is_Some (bound_records st) ∧
  collection (self st) = collection_name (self st) ∧
  Chroma.valid_name E (collection_name (self st)) = true.

(** No two records of a collection carry the same id, in any collection of
    any database. *)
Definition unique_ids (w : World) : Prop :=
  ∀ p c rs, contents w p c = Some rs → NoDup (Chroma.ids_of rs).

(** What Python says of the call in [add_chunks]. *)
Definition add_type_error : exn :=
  TypeError "add() got an unexpected keyword argument 'ndocuments'".

(** What [get_or_create_collection(name=..., metadata=...)] does to a
    database. *)
Definition with_collection (name : string) (db : gmap string (list Chroma.record))
  : gmap string (list Chroma.record) :=
  match db !! name with
  | Some _ => db
  | None => <[name := []]> db
  end.

(** A store to run the methods on: the default directory and collection,
    as [init] leaves them on an empty disk, and the same with two chunks
    stored. *)
Definition fresh_state : state :=
  {| self := {| persist_directory := default_persist_directory;
                collection_name := default_collection_name;
                client := default_persist_directory;
                collection := default_collection_name |};
     world := {| files := {[ default_persist_directory := Fs.Dir ]};
                 disk := {[ default_persist_directory :=
                              {[ default_collection_name := [] ]} ]} |} |}.

Definition two_chunks : list Chroma.record :=
  [ {| Chroma.rec_id := "chunk_0"; Chroma.rec_document := VStr "The sky is blue.";
       Chroma.rec_embedding := VList [VNum 1; VNum 0];
       Chroma.rec_metadata := VNone |};
    {| Chroma.rec_id := "chunk_1";
       Chroma.rec_document := VStr "Paris is the capital of France.";
       Chroma.rec_embedding := VList [VNum 0; VNum 1];
       Chroma.rec_metadata := VNone |} ].

Definition stocked_state : state :=
  {| self := self fresh_state;
     world := {| files := files (world fresh_state);
                 disk := {[ default_persist_directory :=
                              {[ default_collection_name := two_chunks ]} ]} |} |}.

(** A call of one of the two methods, [add_chunks] with [ids] left out. *)
Inductive operation : Type :=
  | Add (chunks : list string) (embeddings : list (list Q))
        (metadatas : option (list (list (string * value))))
  | Delete (ids : list string).

Definition call (E : Chroma.engine) (o : operation) : M state unit :=
  match o with
  | Add chunks embeddings metadatas => add_chunks E chunks embeddings metadatas None
  | Delete ids => delete_chunks E ids
  end.

(** The calls one after the other; a call that raises is caught, and the
    next one runs in the state it left. *)
Fixpoint run (E : Chroma.engine) (ops : list operation) (st : state) : state :=
  match ops with
  | [] => st
  | o :: ops' => run E ops' (call E o st).2
  end.

(** The engine's [delete] removes records and does nothing else to a
    collection. *)
Definition delete_only_removes (E : Chroma.engine) : Prop :=
  ∀ bound rs rs', Chroma.coll_delete E bound rs = Ret rs' → rs' `sublist_of` rs.

(** The world [init] leaves when [mkdir] left the files [t']. *)
Definition world_after_init (dir : Fs.path) (name : string) (t' : Fs.tree)
    (w : World) : World :=
  {| files := t';
     disk := <[dir := with_collection name (database_at w dir)]> (disk w) |}.

(** What holds of a manager and the world once [init] has returned them. *)
Definition constructed (E : Chroma.engine) (dir : Fs.path) (name : string)
    (w : World) (m : ChromaDBManager) (w' : World) : Prop :=
  m = {| persist_directory := dir; collection_name := name;
         client := dir; collection := name |} ∧
  Fs.is_dir (files w') dir = true ∧
  contents w' dir name = Some (default [] (contents w dir name)) ∧
  (∀ p c, ¬ (p = dir ∧ c = name) → contents w' p c = contents w p c) ∧
  usable E {| self := m; world := w' |}.

(** An embedder that has pooled vectors only: loading it succeeds, and it
    says of itself that it exposes no vector per token. *)
Record embedder : Type := MkEmbedder {
  embedder_name : string;
  token_vectors : bool;
}.

Definition pooled_only (model_name : string) : outcome embedder :=
  Ret {| embedder_name := model_name; token_vectors := false |}.

(** The state in which the collection the manager is bound to holds [rs]. *)
Definition store_records (rs : list Chroma.record) (st : state) : state :=
  {| self := self st;
     world := set_disk (alter (insert (collection (self st)) rs)
                          (client (self st)) (disk (world st))) (world st) |}.

(** The arguments the manager hands to the engine. *)
Definition query_arguments (query_embedding : list Q) (n_results : Z)
    (where_ where_document : option (list (string * value)))
  : list (string * value) :=
  [("query_embeddings", VList [embedding_value query_embedding]);
   ("n_results", VInt n_results);
   ("where", optional VDict where_);
   ("where_document", optional VDict where_document)].

Definition delete_arguments (ids : list string) : list (string * value) :=
  [("ids", VList (VStr <$> ids))].

Definition update_arguments (ids : list string)
    (metadatas : list (list (string * value))) : list (string * value) :=
  [("ids", VList (VStr <$> ids)); ("metadatas", VList (VDict <$> metadatas))].

Definition get_arguments (ids : list string) : list (string * value) :=
  [("ids", VList (VStr <$> ids))].

(** A call of any method of the manager. *)
Inductive request : Type :=
  | AddChunks (chunks : list string) (embeddings : list (list Q))
      (metadatas : option (list (list (string * value))))
      (ids : option (list string))
  | QuerySimilar (query_embedding : list Q) (n_results : Z)
      (where_ where_document : option (list (string * value)))
  | GetChunksByIds (ids : list string)
  | DeleteChunks (ids : list string)
  | CountChunks
  | ResetCollection
  | ListCollections
  | SwitchCollection (collection_name : string)
  | UpdateChunkMetadata (ids : list string)
      (metadatas : list (list (string * value))).

(** The state the call leaves, whether it returned or raised. *)
Definition state_after (E : Chroma.engine) (r : request) (st : state) : state :=
  match r with
  | AddChunks chunks embeddings metadatas ids =>
      (add_chunks E chunks embeddings metadatas ids st).2
  | QuerySimilar query_embedding n_results where_ where_document =>
      (query_similar E query_embedding n_results where_ where_document st).2
  | GetChunksByIds ids => (get_chunks_by_ids E ids st).2
  | DeleteChunks ids => (delete_chunks E ids st).2
  | CountChunks => (count_chunks st).2
  | ResetCollection => (reset_collection E st).2
  | ListCollections => (list_collections st).2
  | SwitchCollection name => (switch_collection E name st).2
  | UpdateChunkMetadata ids metadatas => (update_chunk_metadata E ids metadatas st).2
  end.

Fixpoint state_after_all (E : Chroma.engine) (rs : list request) (st : state)
  : state :=
  match rs with
  | [] => st
  | r :: rs' => state_after_all E rs' (state_after E r st)
  end.

(** The calls whose arguments the engine takes: a switch to a name it
    accepts, any call of another method. *)
Definition accepted (E : Chroma.engine) (r : request) : Prop :=
  match r with
  | SwitchCollection name => Chroma.valid_name E name = true
  | _ => True
  end.

(** The calls that neither rebind the manager nor hand the records to the
    engine's [update]. *)
Definition keeps_to_the_collection (r : request) : Prop :=
  match r with
  | SwitchCollection _ | UpdateChunkMetadata _ _ => False
  | _ => True
  end.

(** * Properties *)

(** ** Running a computation step by step *)

Lemma run_bind {S A B} (m : M S A) (k : A → M S B) s :
  (m ≫= k) s = match m s with
               | (Ret a, s') => k a s'
               | (Raise e, s') => (Raise e, s')
               end.
Proof. reflexivity. Qed.

Lemma run_bind_ret {S A B} (m : M S A) (k : A → M S B) s a s' :
  m s = (Ret a, s') → (m ≫= k) s = k a s'.
Proof. intros H. by rewrite run_bind, H. Qed.

Lemma run_bind_raise {S A B} (m : M S A) (k : A → M S B) s e s' :
  m s = (Raise e, s') → (m ≫= k) s = (Raise e, s').
Proof. intros H. by rewrite run_bind, H. Qed.

Lemma run_mret {S A} (a : A) (s : S) : mret (M := M S) a s = (Ret a, s).
Proof. reflexivity. Qed.

(** ** Rewriting the plumbing *)

Lemma set_disk_same w : set_disk (disk w) w = w.
Proof. by destruct w. Qed.

Lemma on_client_same {A} c (m : M (gmap string (list Chroma.record)) A) w db o :
  disk w !! c = Some db → m db = (o, db) → on_client c m w = (o, w).
Proof.
  intros Hc Hm. unfold on_client. rewrite Hc, Hm.
  by rewrite (insert_id _ _ _ Hc), set_disk_same.
Qed.

Lemma on_client_closed {A} c (m : M (gmap string (list Chroma.record)) A) w :
  disk w !! c = None → ∃ e, on_client c m w = (Raise e, w).
Proof. intros Hc. unfold on_client. rewrite Hc. eauto. Qed.

Lemma on_self_collection_same {A} (f : string → M (gmap string (list Chroma.record)) A)
    st db o :
  disk (world st) !! client (self st) = Some db →
  f (collection (self st)) db = (o, db) →
  on_self_collection f st = (o, st).
Proof.
  intros Hc Hf. unfold on_self_collection.
  rewrite (on_client_same _ _ _ _ _ Hc Hf). by destruct st.
Qed.

Lemma on_self_collection_closed {A}
    (f : string → M (gmap string (list Chroma.record)) A) st :
  disk (world st) !! client (self st) = None →
  ∃ e, on_self_collection f st = (Raise e, st).
Proof.
  intros Hc. unfold on_self_collection.
  destruct (on_client_closed (client (self st)) (f (collection (self st))) _ Hc)
    as [e ->].
  exists e. by destruct st.
Qed.

Lemma bound_records_Some st rs :
  bound_records st = Some rs ↔
  ∃ db, disk (world st) !! client (self st) = Some db ∧
        db !! collection (self st) = Some rs.
Proof.
  unfold bound_records, contents. split.
  - intros H. destruct (disk (world st) !! client (self st)) as [db|] eqn:Hd;
      simpl in H; [eauto | done].
  - intros (db & -> & H). done.
Qed.

(** ** Reads leave everything as it was *)

Lemma read_method_same {A} sg (body : list (string * value) → list Chroma.record → outcome A)
    h args kw db :
  (Chroma.read_method sg body h args kw db).2 = db.
Proof.
  unfold Chroma.read_method.
  destruct (bind_arguments sg args kw); [|done]. by destruct (db !! h).
Qed.

Lemma count_bound h db rs :
  db !! h = Some rs → Chroma.count h [] [] db = (Ret (length rs), db).
Proof. intros H. unfold Chroma.count, Chroma.read_method. simpl. by rewrite H. Qed.

Lemma count_chunks_usable st rs :
  bound_records st = Some rs → count_chunks st = (Ret (length rs), st).
Proof.
  intros (db & Hd & Hc)%bound_records_Some.
  apply (on_self_collection_same _ _ db); [done|]. by apply count_bound.
Qed.

(** ** [add_chunks]: the keywords of the call *)

(** The client's [add] declares no parameter [ndocuments]: the call of
    [add_chunks] is refused when its arguments are bound, whatever the
    engine, the collection and the arguments are. *)
Lemma add_refused E h docs kw db :
  Chroma.add E h [] (("ndocuments", docs) :: kw) db = (Raise add_type_error, db).
Proof. reflexivity. Qed.

Lemma add_chunks_with_ids E chunks embeddings metadatas ids st :
  is_Some (disk (world st) !! client (self st)) →
  add_chunks E chunks embeddings metadatas (Some ids) st = (Raise add_type_error, st).
Proof.
  intros [db Hd]. unfold add_chunks.
  rewrite (run_bind_ret _ _ st ids st) by done.
  by apply (on_self_collection_same _ _ db).
Qed.

Lemma add_chunks_without_ids E chunks embeddings metadatas st :
  is_Some (bound_records st) →
  add_chunks E chunks embeddings metadatas None st = (Raise add_type_error, st).
Proof.
  intros [rs Hrs]. pose proof Hrs as (db & Hd & Hc)%bound_records_Some.
  unfold add_chunks.
  rewrite (run_bind_ret _ _ st (generated_ids (length rs) chunks) st).
  - by apply (on_self_collection_same _ _ db).
  - fold count_chunks.
    by rewrite (run_bind_ret _ _ st (length rs) st (count_chunks_usable _ _ Hrs)).
Qed.


Lemma generated_ids_lookup n chunks i :
  i < length chunks →
  generated_ids n chunks !! i = Some ("chunk_" +:+ pretty (n + i)).
Proof.
  intros Hi. unfold generated_ids. rewrite list_lookup_fmap.
  by rewrite (proj2 (lookup_seq 0 (length chunks) i i)).
Qed.



(** Whatever the engine, the arguments and the state, [add_chunks] raises
    and leaves the state as it found it. *)
Lemma add_chunks_refused E chunks embeddings metadatas ids st :
  ∃ e, add_chunks E chunks embeddings metadatas ids st = (Raise e, st).
Proof.
  destruct (disk (world st) !! client (self st)) as [db|] eqn:Hd.
  - destruct ids as [ids|].
    + exists add_type_error. by apply add_chunks_with_ids.
    + destruct (db !! collection (self st)) as [rs|] eqn:Hc.
      * exists add_type_error. apply add_chunks_without_ids. exists rs.
        apply bound_records_Some. eauto.
      * exists (Chroma.no_collection (collection (self st))).
        unfold add_chunks. apply run_bind_raise, run_bind_raise.
        apply (on_self_collection_same _ _ db); [done|].
        unfold Chroma.count, Chroma.read_method. simpl. by rewrite Hc.
  - destruct ids as [ids|].
    + destruct (on_self_collection_closed
        (λ h, Chroma.add E h []
           [("ndocuments", VList (VStr <$> chunks));
            ("nembeddings", VList (embedding_value <$> embeddings));
            ("nmetadatas", optional (λ ms, VList (VDict <$> ms)) metadatas);
            ("nids", VList (VStr <$> ids))]) st Hd) as [e He].
      exists e. unfold add_chunks. by rewrite (run_bind_ret _ _ st ids st).
    + destruct (on_self_collection_closed (λ h, Chroma.count h [] []) st Hd)
        as [e He].
      exists e. unfold add_chunks. by apply run_bind_raise, run_bind_raise.
Qed.

(** C1 (code_bug): [add_chunks] never inserts.  Whatever the engine, the
    arguments and the state, the call raises and leaves the state, and with
    it the size of the collection, as it found them; on a manager whose
    collection exists the exception is the [TypeError] of the keyword
    [ndocuments], which the client's [add] does not declare.  The ids are
    generated as the claim says ([generated_ids_lookup]), but they never
    reach the collection. *)
Theorem add_chunks_raises E chunks embeddings metadatas ids st :
  ∃ e, add_chunks E chunks embeddings metadatas ids st = (Raise e, st) ∧
       (is_Some (bound_records st) → e = add_type_error).
Proof.
  destruct (add_chunks_refused E chunks embeddings metadatas ids st) as [e He].
  exists e. split; [done|]. intros Hrs.
  assert (add_chunks E chunks embeddings metadatas ids st
          = (Raise add_type_error, st)) as Htype.
  { destruct ids as [ids|].
    - apply add_chunks_with_ids. destruct Hrs as [rs Hrs].
      apply bound_records_Some in Hrs as (db & Hd & _). by exists db.
    - by apply add_chunks_without_ids. }
  congruence.
Qed.

(** The call on a store just created: one chunk, no ids. *)
Example add_chunks_fresh_store :
  generated_ids 0 ["The sky is blue."] = ["chunk_0"] ∧
  add_chunks ListEngine.list_engine ["The sky is blue."] [[1%Q; 0%Q]] None None
    fresh_state = (Raise add_type_error, fresh_state) ∧
  count_chunks fresh_state = (Ret 0, fresh_state).
Proof.
  split; [done|]. split.
  - apply add_chunks_without_ids. by eexists.
  - by apply (count_chunks_usable fresh_state []).
Qed.


(** ** The client's collections *)

Lemma on_self_client_run {A} (m : M (gmap string (list Chroma.record)) A) st db o db' :
  disk (world st) !! client (self st) = Some db →
  m db = (o, db') →
  on_self_client m st =
    (o, {| self := self st;
           world := set_disk (<[client (self st) := db']> (disk (world st))) (world st) |}).
Proof. intros Hd Hm. unfold on_self_client, on_client. by rewrite Hd, Hm. Qed.

Lemma on_self_client_closed {A} (m : M (gmap string (list Chroma.record)) A) st :
  disk (world st) !! client (self st) = None →
  ∃ e, on_self_client m st = (Raise e, st).
Proof.
  intros Hd. unfold on_self_client, on_client. rewrite Hd.
  eexists. by destruct st.
Qed.

Lemma with_collection_lookup name db :
  with_collection name db !! name = Some (default [] (db !! name)).
Proof.
  unfold with_collection. destruct (db !! name) as [rs|] eqn:H; simpl.
  - done.
  - by rewrite lookup_insert_eq.
Qed.

Lemma with_collection_lookup_ne name db c :
  c ≠ name → with_collection name db !! c = db !! c.
Proof.
  intros Hne. unfold with_collection. destruct (db !! name); [done|].
  by rewrite lookup_insert_ne.
Qed.

Lemma with_collection_kept name db c rs :
  db !! c = Some rs → with_collection name db !! c = Some rs.
Proof.
  intros H. destruct (decide (c = name)) as [->|Hne].
  - by rewrite with_collection_lookup, H.
  - by rewrite with_collection_lookup_ne.
Qed.

Lemma bind_get_or_create_collection name :
  bind_arguments Chroma.get_or_create_collection_sig []
    [("name", VStr name); ("metadata", VDict description)]
  = Ret [("name", VStr name); ("metadata", VDict description)].
Proof. reflexivity. Qed.

Lemma bind_delete_collection name :
  bind_arguments Chroma.delete_collection_sig [VStr name] []
  = Ret [("name", VStr name)].
Proof. reflexivity. Qed.

Lemma get_or_create_collection_valid E name db :
  Chroma.valid_name E name = true →
  Chroma.get_or_create_collection E []
    [("name", VStr name); ("metadata", VDict description)] db
  = (Ret name, with_collection name db).
Proof.
  intros Hv. unfold Chroma.get_or_create_collection, with_collection.
  rewrite bind_get_or_create_collection.
  change (argument "name" _) with (VStr name). cbn.
  rewrite Hv. by destruct (db !! name).
Qed.

Lemma get_or_create_collection_invalid E name db :
  Chroma.valid_name E name = false →
  ∃ e, Chroma.get_or_create_collection E []
         [("name", VStr name); ("metadata", VDict description)] db
       = (Raise e, db).
Proof.
  intros Hv. unfold Chroma.get_or_create_collection.
  rewrite bind_get_or_create_collection.
  change (argument "name" _) with (VStr name). cbn. rewrite Hv. eauto.
Qed.

Lemma delete_collection_present name db rs :
  db !! name = Some rs →
  Chroma.delete_collection [VStr name] [] db = (Ret tt, delete name db).
Proof.
  intros H. unfold Chroma.delete_collection.
  rewrite bind_delete_collection.
  change (argument "name" _) with (VStr name). cbn. by rewrite H.
Qed.

Lemma delete_collection_absent name db :
  db !! name = None →
  Chroma.delete_collection [VStr name] [] db = (Raise (Chroma.no_collection name), db).
Proof.
  intros H. unfold Chroma.delete_collection.
  rewrite bind_delete_collection.
  change (argument "name" _) with (VStr name). cbn. by rewrite H.
Qed.

(** ** [reset_collection] *)

(** The database [reset_collection] leaves: the collection is there again,
    without records. *)
Lemma reset_collection_usable E st db :
  usable E st →
  disk (world st) !! client (self st) = Some db →
  reset_collection E st =
    (Ret tt,
     {| self := self st;
        world := set_disk (<[client (self st) :=
                              <[collection_name (self st) := []]> db]>
                             (disk (world st))) (world st) |}).
Proof.
  intros ([rs Hrs] & Hname & Hvalid) Hd.
  apply bound_records_Some in Hrs as (db' & Hd' & Hc).
  assert (db' = db) as -> by congruence. rewrite Hname in Hc.
  unfold reset_collection.
  rewrite (run_bind_ret _ _ st (collection_name (self st)) st) by done.
  erewrite run_bind_ret; last first.
  { apply (on_self_client_run _ _ db); [done|].
    by apply (delete_collection_present _ _ rs). }
  erewrite run_bind_ret; last first.
  { eapply on_self_client_run; [apply lookup_insert_eq|].
    by apply get_or_create_collection_valid. }
  unfold modify. cbn. f_equal. f_equal.
  - destruct (self st) as [pd cn cl co]. cbn in *. by subst.
  - unfold set_disk. cbn. f_equal. rewrite insert_insert_eq. f_equal.
    unfold with_collection. rewrite lookup_delete_eq.
    by rewrite insert_delete_eq.
Qed.

Lemma reset_collection_empties E st :
  usable E st →
  ∃ st', reset_collection E st = (Ret tt, st') ∧
         self st' = self st ∧
         bound_records st' = Some [] ∧
         usable E st'.
Proof.
  intros Hu. pose proof Hu as ([rs Hrs] & Hname & Hvalid).
  apply bound_records_Some in Hrs as (db & Hd & Hc).
  eexists. split; [by apply reset_collection_usable|].
  assert (bound_records
            {| self := self st;
               world := set_disk (<[client (self st) :=
                                     <[collection_name (self st) := []]> db]>
                                    (disk (world st))) (world st) |} = Some [])
    as Hempty.
  { apply bound_records_Some. cbn. eexists. split; [apply lookup_insert_eq|].
    rewrite Hname. apply lookup_insert_eq. }
  split; [done|]. split; [done|]. split; [by rewrite Hempty|done].
Qed.

Lemma fresh_state_usable : usable ListEngine.list_engine fresh_state.
Proof. split; [by eexists|]. by split. Qed.

Lemma stocked_state_usable : usable ListEngine.list_engine stocked_state.
Proof. split; [by eexists|]. by split. Qed.

(** C4 (code_bug): after [reset_collection] the collection is empty, so
    [count_chunks] answers 0 and the ids [add_chunks] generates start again
    at [chunk_0]; but the [add_chunks] that follows does not succeed: it
    raises the [TypeError] of the keyword [ndocuments] and stores nothing. *)
Theorem reset_then_add E st :
  usable E st →
  ∃ st', reset_collection E st = (Ret tt, st') ∧
         count_chunks st' = (Ret 0, st') ∧
         (∀ chunk chunks, generated_ids 0 (chunk :: chunks) !! 0 = Some "chunk_0") ∧
         (∀ chunks embeddings metadatas,
            add_chunks E chunks embeddings metadatas None st'
            = (Raise add_type_error, st')).
Proof.
  intros Hu.
  destruct (reset_collection_empties E st Hu) as (st' & Hreset & _ & Hempty & Hu').
  exists st'. split; [done|]. split; [|split].
  - by apply (count_chunks_usable st' []).
  - intros chunk chunks. rewrite generated_ids_lookup by (simpl; lia). done.
  - intros chunks embeddings metadatas. apply add_chunks_without_ids.
    by rewrite Hempty.
Qed.

Lemma reset_then_add_witness :
  ∃ st', reset_collection ListEngine.list_engine stocked_state = (Ret tt, st') ∧
         count_chunks st' = (Ret 0, st') ∧
         (∀ chunk chunks, generated_ids 0 (chunk :: chunks) !! 0 = Some "chunk_0") ∧
         (∀ chunks embeddings metadatas,
            add_chunks ListEngine.list_engine chunks embeddings metadatas None st'
            = (Raise add_type_error, st')).
Proof.
  apply (reset_then_add ListEngine.list_engine stocked_state).
  split; [by eexists|]. by split.
Defined.

(** ** Sequences of [add_chunks] and [delete_chunks] *)

Lemma on_self_collection_run {A} (f : string → M (gmap string (list Chroma.record)) A)
    st db o db' :
  disk (world st) !! client (self st) = Some db →
  f (collection (self st)) db = (o, db') →
  on_self_collection f st =
    (o, {| self := self st;
           world := set_disk (<[client (self st) := db']> (disk (world st))) (world st) |}).
Proof. intros Hd Hf. unfold on_self_collection, on_client. by rewrite Hd, Hf. Qed.

(** A method that writes either leaves the database as it was or replaces
    the records of the collection by what its body returned. *)
Lemma write_method_cases sg body h args kw db :
  (Chroma.write_method sg body h args kw db).2 = db ∨
  ∃ bound rs rs',
    bind_arguments sg args kw = Ret bound ∧ db !! h = Some rs ∧
    body bound rs = Ret rs' ∧
    Chroma.write_method sg body h args kw db = (Ret tt, <[h := rs']> db).
Proof.
  unfold Chroma.write_method.
  destruct (bind_arguments sg args kw) as [bound|e]; [|by left].
  destruct (db !! h) as [rs|] eqn:Hh; [|by left].
  destruct (body bound rs) as [rs'|e] eqn:Hb; [|by left].
  right. by exists bound, rs, rs'.
Qed.

Lemma contents_set_disk w p db q c :
  contents (set_disk (<[p := db]> (disk w)) w) q c =
  if decide (p = q) then db !! c else contents w q c.
Proof.
  unfold contents. cbn. case_decide as Hpq.
  - subst. by rewrite lookup_insert_eq.
  - by rewrite lookup_insert_ne.
Qed.

Lemma sublist_unique_ids (rs rs' : list Chroma.record) :
  rs' `sublist_of` rs → NoDup (Chroma.ids_of rs) → NoDup (Chroma.ids_of rs').
Proof.
  intros Hsub Hnd. eapply sublist_NoDup; [exact Hnd|].
  unfold Chroma.ids_of. by apply fmap_sublist.
Qed.

Lemma delete_chunks_unique_ids E ids st :
  delete_only_removes E →
  unique_ids (world st) → unique_ids (world (delete_chunks E ids st).2).
Proof.
  intros Hdel Huniq. unfold delete_chunks.
  destruct (disk (world st) !! client (self st)) as [db|] eqn:Hd.
  - destruct (Chroma.delete E (collection (self st)) []
                [("ids", VList (VStr <$> ids))] db) as [o db'] eqn:Hrun.
    rewrite (on_self_collection_run _ _ _ _ _ Hd Hrun). cbn.
    intros p c rs. rewrite contents_set_disk. case_decide as Hp; [|apply Huniq].
    subst p.
    destruct (write_method_cases Chroma.delete_sig (Chroma.coll_delete E)
                (collection (self st)) [] [("ids", VList (VStr <$> ids))] db)
      as [Hsame|(bound & rs0 & rs' & _ & Hh & Hbody & Heq)].
    + unfold Chroma.delete in Hrun. rewrite Hrun in Hsame. cbn in Hsame. subst db'.
      intros Hc. apply (Huniq (client (self st)) c). unfold contents.
      by rewrite Hd.
    + unfold Chroma.delete in Hrun. rewrite Hrun in Heq.
      injection Heq as _ ->.
      destruct (decide (c = collection (self st))) as [->|Hc].
      * rewrite lookup_insert_eq. intros [= <-].
        apply (sublist_unique_ids rs0); [by eapply Hdel|].
        apply (Huniq (client (self st)) (collection (self st))).
        unfold contents. by rewrite Hd.
      * rewrite lookup_insert_ne by done. intros Hc'.
        apply (Huniq (client (self st)) c). unfold contents. by rewrite Hd.
  - destruct (on_self_collection_closed
                (λ h, Chroma.delete E h [] [("ids", VList (VStr <$> ids))]) st Hd)
      as [e ->].
    done.
Qed.

Lemma call_unique_ids E o st :
  delete_only_removes E →
  unique_ids (world st) → unique_ids (world (call E o st).2).
Proof.
  intros Hdel Huniq. destruct o as [chunks embeddings metadatas|ids]; simpl.
  - by destruct (add_chunks_refused E chunks embeddings metadatas None st)
      as [e ->].
  - by apply delete_chunks_unique_ids.
Qed.

Lemma list_engine_delete_only_removes : delete_only_removes ListEngine.list_engine.
Proof.
  intros bound rs rs' [= <-]. apply sublist_filter.
Qed.

Lemma two_chunks_unique : NoDup (Chroma.ids_of two_chunks).
Proof. apply (bool_decide_unpack _). by vm_compute. Qed.

Lemma stocked_state_unique_ids : unique_ids (world stocked_state).
Proof.
  intros p c rs. unfold contents.
  change (disk (world stocked_state))
    with ({[ default_persist_directory := {[ default_collection_name := two_chunks ]} ]}
          : gmap (list string) (gmap string (list Chroma.record))).
  destruct (decide (p = default_persist_directory)) as [->|Hp].
  - rewrite lookup_singleton_eq. simpl.
    destruct (decide (c = default_collection_name)) as [->|Hc].
    + rewrite lookup_singleton_eq. intros [= <-]. apply two_chunks_unique.
    + by rewrite lookup_singleton_ne.
  - by rewrite lookup_singleton_ne.
Qed.

(** What keeps the stored ids apart is that nothing is stored.  From a store
    in which no two records of a collection share an id, no sequence of
    [add_chunks] (ids left out) and [delete_chunks] leads to a store in which
    two do, for every engine whose [delete] only removes records:
    [add_chunks] stores nothing ([add_chunks_refused]) and [delete_chunks]
    hands the collection to the engine's [delete].  This says nothing of the
    ids [add_chunks] generates. *)
Theorem ids_stay_unique E ops st :
  delete_only_removes E →
  unique_ids (world st) →
  unique_ids (world (run E ops st)).
Proof.
  intros Hdel. revert st.
  induction ops as [|o ops IH]; intros st Huniq; simpl; [done|].
  apply IH. by apply call_unique_ids.
Qed.

Lemma ids_stay_unique_witness :
  unique_ids (world (run ListEngine.list_engine
    [Add ["The Eiffel Tower is in Paris."] [[1%Q; 1%Q]] None;
     Delete ["chunk_0"];
     Add ["The sky is blue."] [[1%Q; 0%Q]] None]
    stocked_state)).
Proof.
  apply (ids_stay_unique ListEngine.list_engine).
  - exact list_engine_delete_only_removes.
  - exact stocked_state_unique_ids.
Defined.

(** ** [switch_collection] *)

(** The method, case by case: the name is taken first; the client then
    refuses (closed, or a name it does not accept), which leaves the manager
    with the new name and the old collection, or it answers with the
    collection of that name, made empty when there was none. *)
Lemma switch_collection_run E name st :
  switch_collection E name st =
  match disk (world st) !! client (self st) with
  | None =>
      (Raise (ValueError "Could not connect to the database"),
       {| self := set_collection_name name (self st); world := world st |})
  | Some db =>
      if Chroma.valid_name E name then
        (Ret tt,
         {| self := set_collection name (set_collection_name name (self st));
            world := set_disk (<[client (self st) := with_collection name db]>
                                 (disk (world st))) (world st) |})
      else
        (Raise (ValueError ("Invalid collection name " +:+ name)),
         {| self := set_collection_name name (self st); world := world st |})
  end.
Proof.
  unfold switch_collection. rewrite run_bind. unfold modify at 1.
  rewrite run_bind. unfold on_self_client, on_client. cbn.
  destruct (disk (world st) !! client (self st)) as [db|] eqn:Hd; [|done].
  destruct (Chroma.valid_name E name) eqn:Hv.
  - by rewrite (get_or_create_collection_valid E name db Hv).
  - unfold Chroma.get_or_create_collection.
    rewrite bind_get_or_create_collection.
    change (argument "name" _) with (VStr name). cbn. rewrite Hv.
    by rewrite (insert_id _ _ _ Hd), set_disk_same.
Qed.

(** C9: [switch_collection] repoints the manager and touches no other
    collection.  Whatever its outcome, the files are as before, every
    collection that held records holds the same records, and no collection
    of another name appears or changes; when the client is open and accepts
    the name, the manager ends bound to the collection of that name, which
    holds what it held before, or nothing when it was not there. *)
Theorem switch_collection_frame E name st :
  files (world (switch_collection E name st).2) = files (world st) ∧
  (∀ p c rs, contents (world st) p c = Some rs →
             contents (world (switch_collection E name st).2) p c = Some rs) ∧
  (∀ p c, c ≠ name →
          contents (world (switch_collection E name st).2) p c
          = contents (world st) p c) ∧
  (Chroma.valid_name E name = true →
   is_Some (disk (world st) !! client (self st)) →
   (switch_collection E name st).1 = Ret tt ∧
   collection_name (self (switch_collection E name st).2) = name ∧
   collection (self (switch_collection E name st).2) = name ∧
   client (self (switch_collection E name st).2) = client (self st) ∧
   bound_records (switch_collection E name st).2
   = Some (default [] (contents (world st) (client (self st)) name))).
Proof.
  rewrite switch_collection_run.
  destruct (disk (world st) !! client (self st)) as [db|] eqn:Hd.
  - destruct (Chroma.valid_name E name) eqn:Hv; cbn.
    + split; [done|]. split; [|split].
      * intros p c rs. rewrite contents_set_disk. case_decide as Hp; [|done].
        subst p. unfold contents. rewrite Hd. cbn. apply with_collection_kept.
      * intros p c Hc. rewrite contents_set_disk. case_decide as Hp; [|done].
        subst p. unfold contents. rewrite Hd. cbn.
        by apply with_collection_lookup_ne.
      * intros _ _. repeat (split; [done|]).
        unfold bound_records. cbn. rewrite contents_set_disk.
        rewrite decide_True by done. rewrite with_collection_lookup.
        unfold contents. by rewrite Hd.
    + split; [done|]. split; [done|]. split; [done|]. done.
  - cbn. split; [done|]. split; [done|]. split; [done|].
    by intros _ [? ?].
Qed.

(** The same on a store with two chunks: the new collection is empty and the
    one left behind keeps its chunks. *)
Example switch_collection_keeps_chunks :
  let st' := (switch_collection ListEngine.list_engine "notes" stocked_state).2 in
  bound_records st' = Some [] ∧
  contents (world st') default_persist_directory default_collection_name
  = Some two_chunks.
Proof. split; by vm_compute. Qed.

(** ** [mkdir(parents=True, exist_ok=True)] *)

Lemma is_dir_true t p : Fs.is_dir t p = true ↔ Fs.kind_of t p = Some Fs.Dir.
Proof. unfold Fs.is_dir. apply bool_decide_eq_true. Qed.

(** With the parent in place, [mkdir] is [mkdir_here]. *)
Lemma mkdir_parent_present parents exist_ok a parent t k :
  Fs.kind_of t parent = Some k →
  Fs.mkdir parents exist_ok (a :: parent) t = Fs.mkdir_here exist_ok (a :: parent) t.
Proof.
  intros Hk. unfold Fs.mkdir_here. simpl. rewrite Hk.
  destruct k; [|done]. by destruct (t !! (a :: parent)).
Qed.

(** Without it, the parents are made first. *)
Lemma mkdir_parent_missing exist_ok a parent t :
  Fs.kind_of t parent = None →
  Fs.mkdir true exist_ok (a :: parent) t =
  match Fs.mkdir true true parent t with
  | (Ret _, t') => Fs.mkdir_here exist_ok (a :: parent) t'
  | (Raise e, t') => (Raise e, t')
  end.
Proof. intros Hk. simpl. by rewrite Hk. Qed.

(** What [mkdir_here] does when nothing but absence is in the way. *)
Lemma mkdir_here_unobstructed a parent t :
  Fs.kind_of t parent = Some Fs.Dir →
  t !! (a :: parent) ≠ Some Fs.File →
  Fs.mkdir_here true (a :: parent) t =
  (Ret tt, match t !! (a :: parent) with
           | Some _ => t
           | None => <[a :: parent := Fs.Dir]> t
           end).
Proof.
  intros Hk Hf. unfold Fs.mkdir_here. simpl. rewrite Hk.
  destruct (t !! (a :: parent)) as [[]|] eqn:Hp; [|done|done].
  change (bool_decide _) with false. cbn.
  unfold Fs.is_dir. simpl. rewrite Hp. by rewrite bool_decide_eq_true_2.
Qed.

Lemma grows_towards_refl p t : Fs.grows_towards p t t.
Proof.
  split; [done|]. intros q Hq [k Hk]. congruence.
Qed.

Lemma grows_towards_insert p t :
  t !! p = None → Fs.grows_towards p t (<[p := Fs.Dir]> t).
Proof.
  intros Hp. split; [by apply insert_subseteq|].
  intros q Hq [k Hk]. destruct (decide (p = q)) as [->|Hne].
  - by rewrite lookup_insert_eq.
  - rewrite lookup_insert_ne in Hk by done. congruence.
Qed.

Lemma grows_towards_step a parent t t1 t2 :
  Fs.grows_towards parent t t1 → Fs.grows_towards (a :: parent) t1 t2 →
  Fs.grows_towards (a :: parent) t t2.
Proof.
  intros [Hsub1 Hnew1] [Hsub2 Hnew2]. split; [by etrans|].
  intros q Hq Hq2. destruct (t1 !! q) as [k|] eqn:Hq1.
  - destruct (Hnew1 q Hq) as [Hdir Hsuf]; [by eexists|].
    split; [|by apply suffix_cons_r].
    rewrite Hq1 in Hdir. injection Hdir as ->.
    by apply (lookup_weaken t1 t2).
  - by apply Hnew2.
Qed.

(** [mkdir(parents=True, exist_ok=True)] succeeds whenever nothing on the
    way is a file, and leaves the directory in place, with what was there
    before. *)
Lemma mkdir_unobstructed p t :
  Fs.unobstructed t p →
  ∃ t', Fs.mkdir true true p t = (Ret tt, t') ∧
        Fs.is_dir t' p = true ∧ Fs.grows_towards p t t'.
Proof.
  revert t. induction p as [|a parent IH]; intros t Hfree.
  - exists t. split; [done|]. split; [done|]. apply grows_towards_refl.
  - destruct Hfree as [Hfile Hfree].
    assert (∀ t1, Fs.kind_of t1 parent = Some Fs.Dir →
                  t1 !! (a :: parent) ≠ Some Fs.File →
                  ∃ t', Fs.mkdir_here true (a :: parent) t1 = (Ret tt, t') ∧
                        Fs.is_dir t' (a :: parent) = true ∧
                        Fs.grows_towards (a :: parent) t1 t') as Hhere.
    { intros t1 Hk Hf. eexists. split; [by apply mkdir_here_unobstructed|].
      destruct (t1 !! (a :: parent)) as [[]|] eqn:Hp; [|done|].
      - split; [|apply grows_towards_refl]. apply is_dir_true. by simpl.
      - split; [|by apply grows_towards_insert].
        apply is_dir_true. simpl. by rewrite lookup_insert_eq. }
    destruct (Fs.kind_of t parent) as [[]|] eqn:Hk.
    + rewrite (mkdir_parent_present _ _ _ _ _ _ Hk). by apply Hhere.
    + exfalso. destruct parent as [|b parent']; [done|].
      simpl in Hk. by destruct Hfree as [Hb _].
    + rewrite (mkdir_parent_missing _ _ _ _ Hk).
      destruct (IH t Hfree) as (t1 & -> & Hdir1 & Hgrow1).
      destruct (Hhere t1) as (t2 & Hrun & Hdir2 & Hgrow2).
      * by apply is_dir_true.
      * intros Hf. destruct (t !! (a :: parent)) as [k|] eqn:Hp.
        -- destruct Hgrow1 as [Hsub _].
           pose proof (lookup_weaken _ _ _ _ Hp Hsub). congruence.
        -- destruct Hgrow1 as [_ Hnew].
           destruct (Hnew (a :: parent) Hp) as [Hd _]; [by eexists|]. congruence.
      * exists t2. split; [done|]. split; [done|].
        by apply (grows_towards_step a parent t t1 t2).
Qed.

(** Whenever [mkdir] returns, the directory is there. *)
Lemma mkdir_here_returns exist_ok p t t' :
  Fs.mkdir_here exist_ok p t = (Ret tt, t') → Fs.is_dir t' p = true.
Proof.
  unfold Fs.mkdir_here, Fs.os_mkdir.
  destruct p as [|a parent].
  - change (bool_decide _) with false. cbn. intros _. done.
  - destruct (Fs.kind_of t parent) as [[]|] eqn:Hk.
    + destruct (t !! (a :: parent)) as [k|] eqn:Hp.
      * change (bool_decide _) with false. cbn.
        destruct exist_ok; [|done]. cbn.
        destruct (Fs.is_dir t (a :: parent)) eqn:Hd; cbn; [|done].
        by intros [= <-].
      * intros [= <-]. apply is_dir_true. simpl. by rewrite lookup_insert_eq.
    + change (bool_decide _) with false. cbn.
      destruct exist_ok; [|done]. cbn.
      destruct (Fs.is_dir t (a :: parent)) eqn:Hd; cbn; [|done].
      by intros [= <-].
    + change (bool_decide _) with true. cbn. done.
Qed.

Lemma mkdir_returns parents exist_ok p t t' :
  Fs.mkdir parents exist_ok p t = (Ret tt, t') → Fs.is_dir t' p = true.
Proof.
  destruct p as [|a parent].
  - intros _. done.
  - destruct (Fs.kind_of t parent) as [k|] eqn:Hk.
    + rewrite (mkdir_parent_present _ _ _ _ _ _ Hk). apply mkdir_here_returns.
    + destruct parents.
      * rewrite (mkdir_parent_missing _ _ _ _ Hk).
        destruct (Fs.mkdir true true parent t) as [[[]|e] t1]; [|done].
        apply mkdir_here_returns.
      * simpl. rewrite Hk. change (bool_decide _) with true. by cbn.
Qed.

(** ** [__init__] *)

Lemma init_run E dir name w t' :
  Fs.mkdir true true dir (files w) = (Ret tt, t') →
  Chroma.valid_name E name = true →
  init E dir name w =
    (Ret {| persist_directory := dir; collection_name := name;
            client := dir; collection := name |},
     world_after_init dir name t' w).
Proof.
  intros Hmk Hv. unfold init.
  rewrite run_bind. unfold on_files. rewrite Hmk.
  rewrite run_bind. unfold PersistentClient.
  rewrite run_bind. unfold on_client. cbn. rewrite lookup_insert_eq.
  rewrite (get_or_create_collection_valid E name _ Hv).
  unfold world_after_init, set_disk. cbn. by rewrite insert_insert_eq.
Qed.

Lemma init_returns E dir name w m w' :
  init E dir name w = (Ret m, w') →
  Chroma.valid_name E name = true ∧
  ∃ t', Fs.mkdir true true dir (files w) = (Ret tt, t') ∧
        m = {| persist_directory := dir; collection_name := name;
               client := dir; collection := name |} ∧
        w' = world_after_init dir name t' w.
Proof.
  intros Hinit.
  destruct (Fs.mkdir true true dir (files w)) as [[[]|e] t'] eqn:Hmk.
  - destruct (Chroma.valid_name E name) eqn:Hv.
    + rewrite (init_run E dir name w t' Hmk Hv) in Hinit.
      injection Hinit as <- <-. split; [done|]. by exists t'.
    + exfalso. revert Hinit. unfold init.
      rewrite run_bind. unfold on_files. rewrite Hmk.
      rewrite run_bind. unfold PersistentClient.
      rewrite run_bind. unfold on_client. cbn. rewrite lookup_insert_eq.
      match goal with
      | |- context [Chroma.get_or_create_collection E _ _ ?db] =>
          destruct (get_or_create_collection_invalid E name db Hv) as [e ->]
      end.
      done.
  - exfalso. revert Hinit. unfold init.
    rewrite run_bind. unfold on_files. by rewrite Hmk.
Qed.

Lemma contents_after_init dir name t' w p c :
  contents (world_after_init dir name t' w) p c =
  if decide (p = dir ∧ c = name) then Some (default [] (contents w dir name))
  else contents w p c.
Proof.
  unfold contents, world_after_init, database_at. cbn.
  destruct (decide (p = dir)) as [->|Hp].
  - rewrite lookup_insert_eq. cbn.
    destruct (decide (c = name)) as [->|Hc].
    + rewrite decide_True by done. rewrite with_collection_lookup.
      by destruct (disk w !! dir).
    + rewrite decide_False by (by intros [_ ?]).
      rewrite with_collection_lookup_ne by done.
      by destruct (disk w !! dir).
  - rewrite decide_False by (by intros [? _]).
    by rewrite lookup_insert_ne.
Qed.

Lemma init_constructed E dir name w m w' :
  init E dir name w = (Ret m, w') → constructed E dir name w m w'.
Proof.
  intros (Hv & t' & Hmk & -> & ->)%init_returns.
  split; [done|]. split; [by apply (mkdir_returns _ _ _ _ _ Hmk)|].
  split; [|split].
  - rewrite contents_after_init. by rewrite decide_True.
  - intros p c Hpc. rewrite contents_after_init. by rewrite decide_False.
  - split; [|by split].
    unfold bound_records. cbn. rewrite contents_after_init.
    rewrite decide_True by done. by eexists.
Qed.

(** C10: construction does not fail for want of the directory or of the
    collection.  Whenever [init] returns, the directory is there and the
    client holds the collection, with the records it had when it was there
    and none when it was not, every other collection being as before; and
    [init] does return when none of the directory and its ancestors is a file
    and the engine accepts the name, the directory being then made with the
    parents it lacked and over nothing that existed. *)
Theorem init_succeeds E dir name w :
  (∀ m w', init E dir name w = (Ret m, w') → constructed E dir name w m w') ∧
  (Fs.unobstructed (files w) dir →
   Chroma.valid_name E name = true →
   ∃ m w', init E dir name w = (Ret m, w') ∧
           Fs.grows_towards dir (files w) (files w')).
Proof.
  split; [intros m w'; apply init_constructed|].
  intros Hfree Hv.
  destruct (mkdir_unobstructed dir (files w) Hfree) as (t' & Hmk & _ & Hgrow).
  eexists _, _. split; [by apply init_run|]. done.
Qed.

(** On an empty disk: the directory is made under a parent that is not
    there yet. *)
Lemma init_succeeds_witness :
  ∃ m w', init ListEngine.list_engine ["chroma_db"; "data"] "document_chunks"
            {| files := ∅; disk := ∅ |} = (Ret m, w') ∧
          Fs.grows_towards ["chroma_db"; "data"] ∅ (files w').
Proof.
  apply (init_succeeds ListEngine.list_engine ["chroma_db"; "data"]
           "document_chunks" {| files := ∅; disk := ∅ |}).
  - simpl. by split.
  - reflexivity.
Defined.

(** A file where the directory should be is another matter. *)
Example init_over_a_file :
  (init ListEngine.list_engine ["chroma_db"] "document_chunks"
     {| files := {[ ["chroma_db"] := Fs.File ]}; disk := ∅ |}).1
  = Raise (FileExistsError "File exists").
Proof. by vm_compute. Qed.

(** ** The chunkers *)

Lemma cunk_document_run {model} (c : Chunking.chunker (model := model)) args kw :
  Chunking.cunk_document c args kw =
  match args, kw with
  | [], [] => Ret VNone
  | _, (k, _) :: _ =>
      Raise (TypeError ("cunk_document() got an unexpected keyword argument '"
                        +:+ k +:+ "'"))
  | _ :: _, [] =>
      Raise (TypeError "cunk_document() takes too many positional arguments")
  end.
Proof.
  unfold Chunking.cunk_document.
  destruct kw as [|[k v] kw]; destruct args as [|a args]; reflexivity.
Qed.

(** C3 (corrected): the chunkers chunk nothing.  [cunk_document] is the only
    method of the three classes and its body is [pass]: called on a chunker
    of any class it returns [None] when given no argument and raises
    [TypeError] when given a document, so its result is never a sequence of
    chunks, whole document or not. *)
Theorem cunk_document_returns_no_chunks {model}
    (c : Chunking.chunker (model := model)) args kw :
  Chunking.nonempty_sequence (Chunking.cunk_document c args kw) = false ∧
  Chunking.cunk_document c [] [] = Ret VNone ∧
  (args ≠ [] ∨ kw ≠ [] →
   raises_class "TypeError" (Chunking.cunk_document c args kw) = true).
Proof.
  rewrite !cunk_document_run. split; [|split].
  - by destruct args, kw as [|[??]?].
  - done.
  - intros Hne. destruct args, kw as [|[??]?]; try done.
    by destruct Hne.
Qed.

(** A document with text, a chunker of each of the two strategies: no
    chunks, whether the document is passed or not. *)
Lemma cunk_document_no_chunks_for_a_document :
  Chunking.ContextAwareChunking_init pooled_only Chunking.default_model_name
  = Ret (Chunking.MkChunker Chunking.ContextAwareChunking
           (MkEmbedder Chunking.default_model_name false)) ∧
  Chunking.LateChunking_init pooled_only Chunking.default_model_name
  = Ret (Chunking.MkChunker Chunking.LateChunking
           (MkEmbedder Chunking.default_model_name false)) ∧
  ∀ cls,
    let c := Chunking.MkChunker cls (MkEmbedder Chunking.default_model_name false) in
    Chunking.nonempty_sequence
      (Chunking.cunk_document c [VStr "The sky is blue. Paris is in France."] [])
    = false ∧
    Chunking.nonempty_sequence (Chunking.cunk_document c [] []) = false.
Proof. split; [done|]. split; [done|]. intros cls. by split. Qed.

(** C8 (corrected): the late chunker checks no capability.  Its constructor
    is the constructor of the base class: it loads the model and returns the
    chunker whenever the model loads, it raises what loading raises and
    nothing else; and the chunker so made does not raise later either when
    [cunk_document] is called as declared. *)
Theorem late_chunking_init_checks_nothing {model}
    (SentenceTransformer : string → outcome model) model_name :
  Chunking.LateChunking_init SentenceTransformer model_name =
  match SentenceTransformer model_name with
  | Ret m => Ret (Chunking.MkChunker Chunking.LateChunking m)
  | Raise e => Raise e
  end ∧
  (∀ c, Chunking.LateChunking_init SentenceTransformer model_name = Ret c →
        Chunking.cunk_document c [] [] = Ret VNone).
Proof. split; [done|]. intros c _. done. Qed.

(** An embedder without vectors per token: the late chunker is constructed
    all the same, and no [CapabilityError] is raised, at construction or
    after. *)
Lemma late_chunking_without_token_vectors :
  token_vectors (MkEmbedder Chunking.default_model_name false) = false ∧
  Chunking.LateChunking_init pooled_only Chunking.default_model_name
  = Ret (Chunking.MkChunker Chunking.LateChunking
           (MkEmbedder Chunking.default_model_name false)) ∧
  raises_class "CapabilityError"
    (Chunking.LateChunking_init pooled_only Chunking.default_model_name) = false.
Proof. by repeat split. Qed.

(** ** What is left to the engine

    [query_similar], [delete_chunks] and [update_chunk_metadata] name the
    parameters of the client as it declares them, so their calls are bound;
    past that, they add nothing to what the engine does and take nothing
    from it. *)

Lemma store_records_run st db rs :
  disk (world st) !! client (self st) = Some db →
  {| self := self st;
     world := set_disk (<[client (self st) := <[collection (self st) := rs]> db]>
                          (disk (world st))) (world st) |}
  = store_records rs st.
Proof.
  intros Hd. unfold store_records. f_equal. f_equal.
  apply map_eq. intros p.
  destruct (decide (client (self st) = p)) as [<-|Hp].
  - rewrite lookup_insert_eq, lookup_alter_eq. by rewrite Hd.
  - by rewrite lookup_insert_ne, lookup_alter_ne.
Qed.

Lemma bound_records_store rs st :
  is_Some (disk (world st) !! client (self st)) →
  bound_records (store_records rs st) = Some rs.
Proof.
  intros [db Hd]. unfold bound_records, contents, store_records. cbn.
  rewrite lookup_alter_eq, Hd. cbn.
  apply lookup_insert_eq.
Qed.

(** X1: [query_similar] is the engine's [query].  On a manager whose
    collection exists the call is bound, the answer is what the engine
    answers for the records of the collection, and the state is as before. *)
Theorem query_similar_forwards E query_embedding n_results where_ where_document st rs :
  bound_records st = Some rs →
  query_similar E query_embedding n_results where_ where_document st =
  (Chroma.coll_query E
     (query_arguments query_embedding n_results where_ where_document) rs, st).
Proof.
  intros (db & Hd & Hc)%bound_records_Some. unfold query_similar.
  apply (on_self_collection_same _ _ db); [done|].
  unfold Chroma.query, Chroma.read_method.
  change (bind_arguments Chroma.query_sig [] _)
    with (Ret (query_arguments query_embedding n_results where_ where_document)).
  by rewrite Hc.
Qed.

(** X2: [delete_chunks] is the engine's [delete].  On a manager whose
    collection exists the call is bound; it raises what the engine raises,
    leaving the state as it was, and otherwise the collection holds the
    records the engine returned. *)
Theorem delete_chunks_forwards E ids st rs :
  bound_records st = Some rs →
  delete_chunks E ids st =
  match Chroma.coll_delete E (delete_arguments ids) rs with
  | Ret rs' => (Ret tt, store_records rs' st)
  | Raise e => (Raise e, st)
  end.
Proof.
  intros (db & Hd & Hc)%bound_records_Some. unfold delete_chunks.
  destruct (Chroma.coll_delete E (delete_arguments ids) rs) as [rs'|e] eqn:Hbody.
  - rewrite <- (store_records_run st db rs' Hd).
    apply (on_self_collection_run _ _ db); [done|].
    unfold Chroma.delete, Chroma.write_method.
    change (bind_arguments Chroma.delete_sig [] _) with (Ret (delete_arguments ids)).
    by rewrite Hc, Hbody.
  - apply (on_self_collection_same _ _ db); [done|].
    unfold Chroma.delete, Chroma.write_method.
    change (bind_arguments Chroma.delete_sig [] _) with (Ret (delete_arguments ids)).
    by rewrite Hc, Hbody.
Qed.

(** X3: [update_chunk_metadata] is the engine's [update], in the same way:
    the manager checks neither the ids nor the metadata. *)
Theorem update_chunk_metadata_forwards E ids metadatas st rs :
  bound_records st = Some rs →
  update_chunk_metadata E ids metadatas st =
  match Chroma.coll_update E (update_arguments ids metadatas) rs with
  | Ret rs' => (Ret tt, store_records rs' st)
  | Raise e => (Raise e, st)
  end.
Proof.
  intros (db & Hd & Hc)%bound_records_Some. unfold update_chunk_metadata.
  destruct (Chroma.coll_update E (update_arguments ids metadatas) rs)
    as [rs'|e] eqn:Hbody.
  - rewrite <- (store_records_run st db rs' Hd).
    apply (on_self_collection_run _ _ db); [done|].
    unfold Chroma.update, Chroma.write_method.
    change (bind_arguments Chroma.update_sig [] _)
      with (Ret (update_arguments ids metadatas)).
    by rewrite Hc, Hbody.
  - apply (on_self_collection_same _ _ db); [done|].
    unfold Chroma.update, Chroma.write_method.
    change (bind_arguments Chroma.update_sig [] _)
      with (Ret (update_arguments ids metadatas)).
    by rewrite Hc, Hbody.
Qed.

Lemma stocked_state_bound : bound_records stocked_state = Some two_chunks.
Proof. reflexivity. Qed.

Lemma query_similar_forwards_witness :
  query_similar ListEngine.list_engine [1%Q; 0%Q] 10 None None stocked_state =
  (Chroma.coll_query ListEngine.list_engine
     (query_arguments [1%Q; 0%Q] 10 None None) two_chunks, stocked_state).
Proof.
  apply (query_similar_forwards ListEngine.list_engine [1%Q; 0%Q] 10 None None
           stocked_state two_chunks).
  reflexivity.
Defined.

Lemma delete_chunks_forwards_witness :
  delete_chunks ListEngine.list_engine ["chunk_0"; "chunk_7"] stocked_state =
  match Chroma.coll_delete ListEngine.list_engine
          (delete_arguments ["chunk_0"; "chunk_7"]) two_chunks with
  | Ret rs' => (Ret tt, store_records rs' stocked_state)
  | Raise e => (Raise e, stocked_state)
  end.
Proof.
  apply (delete_chunks_forwards ListEngine.list_engine ["chunk_0"; "chunk_7"]
           stocked_state two_chunks).
  reflexivity.
Defined.

Lemma update_chunk_metadata_forwards_witness :
  update_chunk_metadata ListEngine.list_engine ["chunk_7"]
    [[("source", VStr "notes.txt")]] stocked_state =
  match Chroma.coll_update ListEngine.list_engine
          (update_arguments ["chunk_7"] [[("source", VStr "notes.txt")]])
          two_chunks with
  | Ret rs' => (Ret tt, store_records rs' stocked_state)
  | Raise e => (Raise e, stocked_state)
  end.
Proof.
  apply (update_chunk_metadata_forwards ListEngine.list_engine ["chunk_7"]
           [[("source", VStr "notes.txt")]] stocked_state two_chunks).
  reflexivity.
Defined.

(** ** The ids [add_chunks] generates *)


(** Numbering from the size is not numbering afresh.  Once [chunk_0] is
    gone from a collection that held [chunk_0] and [chunk_1], the size is 1
    and the id generated next is [chunk_1], which the collection holds. *)
Theorem generated_id_taken_after_delete :
  let rs := filter (λ r, Chroma.rec_id r ≠ "chunk_0") two_chunks in
  Chroma.ids_of rs = ["chunk_1"] ∧
  generated_ids (length rs) ["The Eiffel Tower is in Paris."] = ["chunk_1"].
Proof. by vm_compute. Qed.

(** X6: a name the engine refuses leaves [switch_collection] half done: the
    call raises, the manager keeps the collection it was bound to, and its
    [collection_name] is already the refused name. *)
Theorem switch_collection_refused E name st :
  Chroma.valid_name E name = false →
  is_Some (disk (world st) !! client (self st)) →
  returns (switch_collection E name st).1 = false ∧
  world (switch_collection E name st).2 = world st ∧
  collection (self (switch_collection E name st).2) = collection (self st) ∧
  collection_name (self (switch_collection E name st).2) = name.
Proof.
  intros Hv [db Hd]. rewrite switch_collection_run, Hd, Hv. by cbn.
Qed.

Lemma switch_collection_refused_witness :
  returns (switch_collection ListEngine.list_engine "ab" stocked_state).1 = false ∧
  world (switch_collection ListEngine.list_engine "ab" stocked_state).2
  = world stocked_state ∧
  collection (self (switch_collection ListEngine.list_engine "ab" stocked_state).2)
  = collection (self stocked_state) ∧
  collection_name (self (switch_collection ListEngine.list_engine "ab" stocked_state).2)
  = "ab".
Proof.
  apply (switch_collection_refused ListEngine.list_engine "ab" stocked_state).
  - reflexivity.
  - by eexists.
Defined.

(** ** The methods that read *)

Lemma on_self_collection_reads {A}
    (f : string → M (gmap string (list Chroma.record)) A) st :
  (∀ h db, (f h db).2 = db) → (on_self_collection f st).2 = st.
Proof.
  intros Hread. unfold on_self_collection, on_client.
  destruct (disk (world st) !! client (self st)) as [db|] eqn:Hd.
  - specialize (Hread (collection (self st)) db).
    destruct (f (collection (self st)) db) as [o db']. cbn in *. subst db'.
    rewrite (insert_id _ _ _ Hd), set_disk_same. by destruct st.
  - by destruct st.
Qed.

Lemma on_self_client_reads {A} (m : M (gmap string (list Chroma.record)) A) st :
  (∀ db, (m db).2 = db) → (on_self_client m st).2 = st.
Proof.
  intros Hread. unfold on_self_client, on_client.
  destruct (disk (world st) !! client (self st)) as [db|] eqn:Hd.
  - specialize (Hread db). destruct (m db) as [o db']. cbn in *. subst db'.
    rewrite (insert_id _ _ _ Hd), set_disk_same. by destruct st.
  - by destruct st.
Qed.

Lemma client_list_collections_run db :
  Chroma.list_collections [] [] db = (Ret (map_to_list db).*1, db).
Proof. reflexivity. Qed.

(** X7: the four methods that read, [query_similar], [get_chunks_by_ids],
    [count_chunks] and [list_collections], leave the manager and the world
    exactly as they found them, whatever the engine answers and also when
    they raise. *)
Theorem reads_change_nothing E st :
  (∀ query_embedding n_results where_ where_document,
     (query_similar E query_embedding n_results where_ where_document st).2 = st) ∧
  (∀ ids, (get_chunks_by_ids E ids st).2 = st) ∧
  (count_chunks st).2 = st ∧
  (list_collections st).2 = st.
Proof.
  split; [|split; [|split]].
  - intros. apply on_self_collection_reads. intros h db. apply read_method_same.
  - intros. apply on_self_collection_reads. intros h db. apply read_method_same.
  - apply on_self_collection_reads. intros h db. apply read_method_same.
  - apply on_self_client_reads. intros db. by rewrite client_list_collections_run.
Qed.

(** X8: [get_chunks_by_ids] is the engine's [get]: on a manager whose
    collection exists the call is bound and the answer is what the engine
    answers for the records of the collection; ids the collection does not
    hold are the engine's business, the manager checks nothing. *)
Theorem get_chunks_by_ids_forwards E ids st rs :
  bound_records st = Some rs →
  get_chunks_by_ids E ids st = (Chroma.coll_get E (get_arguments ids) rs, st).
Proof.
  intros (db & Hd & Hc)%bound_records_Some. unfold get_chunks_by_ids.
  apply (on_self_collection_same _ _ db); [done|].
  unfold Chroma.get, Chroma.read_method.
  change (bind_arguments Chroma.get_sig [] _) with (Ret (get_arguments ids)).
  by rewrite Hc.
Qed.

Lemma get_chunks_by_ids_forwards_witness :
  get_chunks_by_ids ListEngine.list_engine ["chunk_1"; "chunk_7"] stocked_state =
  (Chroma.coll_get ListEngine.list_engine
     (get_arguments ["chunk_1"; "chunk_7"]) two_chunks, stocked_state).
Proof.
  apply (get_chunks_by_ids_forwards ListEngine.list_engine ["chunk_1"; "chunk_7"]
           stocked_state two_chunks).
  reflexivity.
Defined.

(** X9: [count_chunks] returns [n] exactly when the collection the manager
    is bound to exists and holds [n] records; otherwise (client closed,
    collection deleted behind the manager's back) it raises. *)
Theorem count_chunks_reports st n :
  (count_chunks st).1 = Ret n ↔
  ∃ rs, bound_records st = Some rs ∧ length rs = n.
Proof.
  split.
  - unfold count_chunks, on_self_collection, on_client.
    destruct (disk (world st) !! client (self st)) as [db|] eqn:Hd; [|done].
    unfold Chroma.count, Chroma.read_method. cbn.
    destruct (db !! collection (self st)) as [rs|] eqn:Hc; [|done].
    cbn. intros [= <-]. exists rs. split; [|done].
    apply bound_records_Some. eauto.
  - intros (rs & Hrs & <-). by rewrite (count_chunks_usable st rs Hrs).
Qed.

(** X10: [list_collections] lists the collections of the client, each name
    once: a name is listed exactly when the database under the manager's
    directory holds a collection of that name. *)
Theorem list_collections_lists st :
  is_Some (disk (world st) !! client (self st)) →
  ∃ names, list_collections st = (Ret names, st) ∧
           NoDup names ∧
           ∀ name, name ∈ names ↔
                   is_Some (contents (world st) (client (self st)) name).
Proof.
  intros [db Hd]. exists (map_to_list db).*1. split; [|split].
  - unfold list_collections, on_self_client.
    rewrite (on_client_same _ _ _ db (Ret (map_to_list db).*1) Hd
               (client_list_collections_run db)).
    by destruct st.
  - apply NoDup_fst_map_to_list.
  - intros name. unfold contents. rewrite Hd. cbn.
    rewrite list_elem_of_fmap. split.
    + intros ([k rs] & -> & Hin). apply elem_of_map_to_list in Hin. by eexists.
    + intros [rs Hrs]. exists (name, rs). split; [done|].
      by apply elem_of_map_to_list.
Qed.

Lemma list_collections_lists_witness :
  ∃ names, list_collections stocked_state = (Ret names, stocked_state) ∧
           NoDup names ∧
           ∀ name, name ∈ names ↔
                   is_Some (contents (world stocked_state)
                              (client (self stocked_state)) name).
Proof.
  apply (list_collections_lists stocked_state).
  by eexists.
Defined.

(** ** [reset_collection], case by case *)

(** The method on any state: the client is closed, or the name the manager
    keeps names no collection (both raise and change nothing), or the
    collection is deleted and then made again, unless the engine refuses the
    name at that point, which leaves it deleted. *)
Lemma reset_collection_run E st :
  reset_collection E st =
  match disk (world st) !! client (self st) with
  | None => (Raise (ValueError "Could not connect to the database"), st)
  | Some db =>
      match db !! collection_name (self st) with
      | None => (Raise (Chroma.no_collection (collection_name (self st))), st)
      | Some _ =>
          if Chroma.valid_name E (collection_name (self st)) then
            (Ret tt,
             {| self := set_collection (collection_name (self st)) (self st);
                world := set_disk (<[client (self st) :=
                                      <[collection_name (self st) := []]> db]>
                                     (disk (world st))) (world st) |})
          else
            (Raise (ValueError ("Invalid collection name "
                                +:+ collection_name (self st))),
             {| self := self st;
                world := set_disk (<[client (self st) :=
                                      delete (collection_name (self st)) db]>
                                     (disk (world st))) (world st) |})
      end
  end.
Proof.
  unfold reset_collection. rewrite run_bind. unfold gets at 1.
  rewrite run_bind. unfold on_self_client at 1, on_client at 1.
  destruct (disk (world st) !! client (self st)) as [db|] eqn:Hd;
    [|by destruct st].
  destruct (db !! collection_name (self st)) as [rs|] eqn:Hc.
  - rewrite (delete_collection_present _ _ _ Hc).
    rewrite run_bind. unfold on_self_client, on_client. cbn.
    rewrite lookup_insert_eq.
    destruct (Chroma.valid_name E (collection_name (self st))) eqn:Hv.
    + rewrite (get_or_create_collection_valid E _ _ Hv).
      unfold modify, set_disk. cbn. do 3 f_equal.
      rewrite insert_insert_eq. f_equal.
      unfold with_collection. rewrite lookup_delete_eq.
      by rewrite insert_delete_eq.
    + unfold Chroma.get_or_create_collection.
      rewrite bind_get_or_create_collection.
      change (argument "name" _) with (VStr (collection_name (self st))).
      cbn. rewrite Hv. unfold set_disk. cbn. by rewrite insert_insert_eq.
  - rewrite (delete_collection_absent _ _ Hc).
    rewrite (insert_id _ _ _ Hd), set_disk_same. by destruct st.
Qed.

Lemma contents_same_disk_entry w p db q c :
  disk w !! p = Some db →
  contents w q c = if decide (p = q) then db !! c else contents w q c.
Proof.
  intros Hd. case_decide as Hpq; [|done]. subst. unfold contents. by rewrite Hd.
Qed.

(** X11: [reset_collection] touches the collection whose name the manager
    keeps and nothing else.  Whatever its outcome, the files and every
    collection of another name, in every database, are as before, and the
    manager keeps its directory, its client and its name; when it returns,
    the manager is bound to the collection of that name, which holds no
    record. *)
Theorem reset_collection_only_current E st :
  files (world (reset_collection E st).2) = files (world st) ∧
  (∀ p c, c ≠ collection_name (self st) →
          contents (world (reset_collection E st).2) p c
          = contents (world st) p c) ∧
  persist_directory (self (reset_collection E st).2) = persist_directory (self st) ∧
  client (self (reset_collection E st).2) = client (self st) ∧
  collection_name (self (reset_collection E st).2) = collection_name (self st) ∧
  ((reset_collection E st).1 = Ret tt →
   collection (self (reset_collection E st).2) = collection_name (self st) ∧
   bound_records (reset_collection E st).2 = Some []).
Proof.
  rewrite reset_collection_run.
  destruct (disk (world st) !! client (self st)) as [db|] eqn:Hd; [|done].
  destruct (db !! collection_name (self st)) as [rs|] eqn:Hc; [|done].
  destruct (Chroma.valid_name E (collection_name (self st))) eqn:Hv; cbn.
  - split; [done|]. split; [|do 3 (split; [done|])].
    + intros p c Hne. rewrite contents_set_disk. case_decide as Hp; [|done].
      subst p. rewrite lookup_insert_ne by done. unfold contents. by rewrite Hd.
    + intros _. split; [done|]. unfold bound_records. cbn.
      rewrite contents_set_disk, decide_True by done. apply lookup_insert_eq.
  - split; [done|]. split; [|done].
    intros p c Hne. rewrite contents_set_disk. case_decide as Hp; [|done].
    subst p. rewrite lookup_delete_ne by done. unfold contents. by rewrite Hd.
Qed.

(** X12: resetting twice is resetting once: on a usable manager the second
    [reset_collection] returns and leaves the state the first one left. *)
Theorem reset_collection_idempotent E st :
  usable E st →
  reset_collection E (reset_collection E st).2 = reset_collection E st.
Proof.
  intros Hu. pose proof Hu as ([rs Hrs] & Hname & Hvalid).
  apply bound_records_Some in Hrs as (db & Hd & Hc).
  rewrite (reset_collection_usable E st db Hu Hd). cbn.
  rewrite reset_collection_run. cbn. rewrite lookup_insert_eq.
  rewrite lookup_insert_eq, Hvalid.
  unfold set_disk. cbn. do 3 f_equal.
  - destruct (self st) as [pd cn cl co]. cbn in *. by subst.
  - by rewrite !insert_insert_eq.
Qed.

Lemma reset_collection_idempotent_witness :
  reset_collection ListEngine.list_engine
    (reset_collection ListEngine.list_engine stocked_state).2
  = reset_collection ListEngine.list_engine stocked_state.
Proof.
  apply (reset_collection_idempotent ListEngine.list_engine stocked_state).
  split; [by eexists|]. by split.
Defined.

(** X13: a refused [switch_collection] disarms [reset_collection].  When
    the engine refuses a name that names no collection, the manager is left
    with that name, and the [reset_collection] that follows raises without
    touching anything: the collection the manager is still bound to keeps
    its records. *)
Theorem reset_after_refused_switch E name st :
  usable E st →
  Chroma.valid_name E name = false →
  contents (world st) (client (self st)) name = None →
  reset_collection E (switch_collection E name st).2
  = (Raise (Chroma.no_collection name), (switch_collection E name st).2) ∧
  bound_records (switch_collection E name st).2 = bound_records st.
Proof.
  intros ([rs Hrs] & Hname & Hvalid) Hv Habsent.
  apply bound_records_Some in Hrs as (db & Hd & Hc).
  rewrite switch_collection_run, Hd, Hv. cbn.
  split; [|done].
  rewrite reset_collection_run. cbn. rewrite Hd.
  unfold contents in Habsent. rewrite Hd in Habsent. cbn in Habsent.
  by rewrite Habsent.
Qed.

Lemma reset_after_refused_switch_witness :
  reset_collection ListEngine.list_engine
    (switch_collection ListEngine.list_engine "ab" stocked_state).2
  = (Raise (Chroma.no_collection "ab"),
     (switch_collection ListEngine.list_engine "ab" stocked_state).2) ∧
  bound_records (switch_collection ListEngine.list_engine "ab" stocked_state).2
  = bound_records stocked_state.
Proof.
  apply (reset_after_refused_switch ListEngine.list_engine "ab" stocked_state).
  - split; [by eexists|]. by split.
  - reflexivity.
  - reflexivity.
Defined.

(** ** [switch_collection], composed *)

Lemma set_collection_same m :
  collection m = collection_name m →
  set_collection (collection_name m) (set_collection_name (collection_name m) m) = m.
Proof. intros H. destruct m as [pd cn cl co]. cbn in *. by subst. Qed.

Lemma with_collection_present name db rs :
  db !! name = Some rs → with_collection name db = db.
Proof. intros H. unfold with_collection. by rewrite H. Qed.

(** X14: switching to the collection the manager is bound to is no switch:
    on a usable manager [switch_collection(self.collection_name)] returns
    and changes neither the manager nor the world. *)
Theorem switch_collection_to_current E st :
  usable E st →
  switch_collection E (collection_name (self st)) st = (Ret tt, st).
Proof.
  intros ([rs Hrs] & Hname & Hvalid).
  apply bound_records_Some in Hrs as (db & Hd & Hc). rewrite Hname in Hc.
  rewrite switch_collection_run, Hd, Hvalid.
  rewrite (with_collection_present _ _ _ Hc), (insert_id _ _ _ Hd), set_disk_same.
  rewrite (set_collection_same _ Hname). by destruct st.
Qed.

Lemma switch_collection_to_current_witness :
  switch_collection ListEngine.list_engine (collection_name (self stocked_state))
    stocked_state = (Ret tt, stocked_state).
Proof.
  apply (switch_collection_to_current ListEngine.list_engine stocked_state).
  split; [by eexists|]. by split.
Defined.

(** X15: there and back.  From a usable manager, switching to a name the
    engine accepts and then back to the first collection returns both times;
    the manager is as it was, bound to the first collection with the records
    it had, and the world is the one the first switch left: the only trace
    is that the other collection now exists. *)
Theorem switch_collection_and_back E name st :
  usable E st →
  Chroma.valid_name E name = true →
  (switch_collection E name st).1 = Ret tt ∧
  switch_collection E (collection_name (self st)) (switch_collection E name st).2
  = (Ret tt, {| self := self st; world := world (switch_collection E name st).2 |}) ∧
  bound_records {| self := self st; world := world (switch_collection E name st).2 |}
  = bound_records st.
Proof.
  intros ([rs Hrs] & Hname & Hvalid) Hv.
  apply bound_records_Some in Hrs as (db & Hd & Hc).
  rewrite switch_collection_run, Hd, Hv. cbn. split; [done|].
  assert (with_collection name db !! collection_name (self st) = Some rs) as Hkept.
  { apply with_collection_kept. by rewrite <- Hname. }
  split.
  - rewrite switch_collection_run. cbn. rewrite lookup_insert_eq, Hvalid.
    rewrite (with_collection_present _ _ _ Hkept).
    unfold set_disk. cbn. rewrite insert_insert_eq. f_equal. f_equal.
    destruct (self st) as [pd cn cl co]. cbn in *. by subst.
  - unfold bound_records. cbn. rewrite contents_set_disk, decide_True by done.
    rewrite Hname, Hkept. unfold contents. rewrite Hd. cbn. by rewrite Hname in Hc.
Qed.

Lemma switch_collection_and_back_witness :
  (switch_collection ListEngine.list_engine "notes" stocked_state).1 = Ret tt ∧
  switch_collection ListEngine.list_engine (collection_name (self stocked_state))
    (switch_collection ListEngine.list_engine "notes" stocked_state).2
  = (Ret tt,
     {| self := self stocked_state;
        world := world (switch_collection ListEngine.list_engine "notes"
                          stocked_state).2 |}) ∧
  bound_records
    {| self := self stocked_state;
       world := world (switch_collection ListEngine.list_engine "notes"
                         stocked_state).2 |}
  = bound_records stocked_state.
Proof.
  apply (switch_collection_and_back ListEngine.list_engine "notes" stocked_state).
  - split; [by eexists|]. by split.
  - reflexivity.
Defined.

Lemma list_collections_run st db :
  disk (world st) !! client (self st) = Some db →
  list_collections st = (Ret (map_to_list db).*1, st).
Proof.
  intros Hd. unfold list_collections, on_self_client.
  rewrite (on_client_same _ _ _ db (Ret (map_to_list db).*1) Hd
             (client_list_collections_run db)).
  by destruct st.
Qed.

Lemma elem_of_collection_names (db : gmap string (list Chroma.record)) name :
  name ∈ (map_to_list db).*1 ↔ is_Some (db !! name).
Proof.
  rewrite list_elem_of_fmap. split.
  - intros ([k rs] & -> & Hin). apply elem_of_map_to_list in Hin. by eexists.
  - intros [rs Hrs]. exists (name, rs). split; [done|].
    by apply elem_of_map_to_list.
Qed.

(** X16: what [list_collections] answers after a [switch_collection] that
    returned: the name switched to, and the names it answered before, no
    more and no less.  Switching never drops a collection from the list. *)
Theorem list_collections_after_switch E name st :
  (switch_collection E name st).1 = Ret tt →
  ∃ before after,
    list_collections st = (Ret before, st) ∧
    list_collections (switch_collection E name st).2
    = (Ret after, (switch_collection E name st).2) ∧
    ∀ n, n ∈ after ↔ n = name ∨ n ∈ before.
Proof.
  rewrite switch_collection_run.
  destruct (disk (world st) !! client (self st)) as [db|] eqn:Hd; [|done].
  destruct (Chroma.valid_name E name) eqn:Hv; [|done]. intros _. cbn.
  exists (map_to_list db).*1, (map_to_list (with_collection name db)).*1.
  split; [by apply list_collections_run|]. split.
  - apply list_collections_run. cbn. apply lookup_insert_eq.
  - intros n. rewrite !elem_of_collection_names.
    destruct (decide (n = name)) as [->|Hne].
    + rewrite with_collection_lookup. split; [by left|by eexists].
    + rewrite with_collection_lookup_ne by done.
      split; [by right|]. by intros [?|?].
Qed.

Lemma list_collections_after_switch_witness :
  ∃ before after,
    list_collections stocked_state = (Ret before, stocked_state) ∧
    list_collections (switch_collection ListEngine.list_engine "notes" stocked_state).2
    = (Ret after, (switch_collection ListEngine.list_engine "notes" stocked_state).2) ∧
    ∀ n, n ∈ after ↔ n = "notes" ∨ n ∈ before.
Proof.
  apply (list_collections_after_switch ListEngine.list_engine "notes" stocked_state).
  reflexivity.
Defined.

(** ** [__init__], on every path *)

Lemma os_mkdir_grows p t : t ⊆ (Fs.os_mkdir p t).2.
Proof.
  unfold Fs.os_mkdir. destruct p as [|a parent]; [done|].
  destruct (Fs.kind_of t parent) as [[]|]; [|done|done].
  destruct (t !! (a :: parent)) eqn:Hp; [done|]. cbn. by apply insert_subseteq.
Qed.

Lemma mkdir_here_grows exist_ok p t : t ⊆ (Fs.mkdir_here exist_ok p t).2.
Proof.
  unfold Fs.mkdir_here. pose proof (os_mkdir_grows p t) as Hgrow.
  destruct (Fs.os_mkdir p t) as [[u|e] t']; [done|].
  cbn in Hgrow. destruct (bool_decide _); [done|]. by destruct (_ || _).
Qed.

(** [mkdir] only adds to the tree, also when it fails. *)
Lemma mkdir_grows parents exist_ok p t : t ⊆ (Fs.mkdir parents exist_ok p t).2.
Proof.
  revert parents exist_ok t. induction p as [|a parent IH]; intros parents exist_ok t.
  - cbn. change (bool_decide _) with false. cbn. by destruct (_ || _).
  - destruct (Fs.kind_of t parent) as [k|] eqn:Hk.
    + rewrite (mkdir_parent_present _ _ _ _ _ _ Hk). apply mkdir_here_grows.
    + destruct parents.
      * rewrite (mkdir_parent_missing _ _ _ _ Hk).
        pose proof (IH true true t) as Hup.
        destruct (Fs.mkdir true true parent t) as [[u|e] t1]; [|done].
        cbn in Hup. etrans; [exact Hup|]. apply mkdir_here_grows.
      * simpl. rewrite Hk. change (bool_decide _) with true. by cbn.
Qed.

Lemma mkdir_here_cases exist_ok p t t' :
  Fs.mkdir_here exist_ok p t = (Ret tt, t') →
  t' = t ∨ (t !! p = None ∧ t' = <[p := Fs.Dir]> t).
Proof.
  unfold Fs.mkdir_here, Fs.os_mkdir. destruct p as [|a parent].
  - change (bool_decide _) with false. cbn. destruct (_ || _); [done|].
    intros [= <-]. by left.
  - destruct (Fs.kind_of t parent) as [[]|].
    + destruct (t !! (a :: parent)) eqn:Hp.
      * change (bool_decide _) with false. cbn. destruct (_ || _); [done|].
        intros [= <-]. by left.
      * intros [= <-]. by right.
    + change (bool_decide _) with false. cbn. destruct (_ || _); [done|].
      intros [= <-]. by left.
    + change (bool_decide _) with true. by cbn.
Qed.

Lemma cons_ne_tail {A} (a : A) (l : list A) : a :: l ≠ l.
Proof. intros H. apply (f_equal length) in H. simpl in H. lia. Qed.

Lemma kind_of_insert_child a parent t :
  Fs.kind_of (<[a :: parent := Fs.Dir]> t) parent = Fs.kind_of t parent.
Proof.
  destruct parent as [|b parent']; [done|]. simpl.
  apply lookup_insert_ne, cons_ne_tail.
Qed.

(** Once [mkdir] has returned, the parent of the directory is there too. *)
Lemma mkdir_leaves_parent a parent t t' :
  Fs.mkdir true true (a :: parent) t = (Ret tt, t') →
  is_Some (Fs.kind_of t' parent).
Proof.
  destruct (Fs.kind_of t parent) as [k|] eqn:Hk.
  - rewrite (mkdir_parent_present _ _ _ _ _ _ Hk).
    intros [->|[_ ->]]%mkdir_here_cases; [by rewrite Hk|].
    by rewrite kind_of_insert_child, Hk.
  - rewrite (mkdir_parent_missing _ _ _ _ Hk).
    destruct (Fs.mkdir true true parent t) as [[[]|e] t1] eqn:Hup; [|done].
    apply mkdir_returns, is_dir_true in Hup.
    intros [->|[_ ->]]%mkdir_here_cases; [by rewrite Hup|].
    by rewrite kind_of_insert_child, Hup.
Qed.

(** A directory that is there, under a parent that is there, is left alone. *)
Lemma mkdir_existing parents p t :
  Fs.is_dir t p = true →
  (∀ a parent, p = a :: parent → is_Some (Fs.kind_of t parent)) →
  Fs.mkdir parents true p t = (Ret tt, t).
Proof.
  intros Hdir Hparent. destruct p as [|a parent].
  - cbn. change (bool_decide _) with false. by cbn.
  - destruct (Hparent a parent eq_refl) as [k Hk].
    rewrite (mkdir_parent_present _ _ _ _ _ _ Hk).
    unfold Fs.mkdir_here, Fs.os_mkdir. rewrite Hk.
    apply is_dir_true in Hdir as Hp. simpl in Hp.
    destruct k.
    + rewrite Hp. change (bool_decide _) with false. cbn. by rewrite Hdir.
    + change (bool_decide _) with false. cbn. by rewrite Hdir.
Qed.

Lemma mkdir_twice p t t' :
  Fs.mkdir true true p t = (Ret tt, t') → Fs.mkdir true true p t' = (Ret tt, t').
Proof.
  intros Hmk. apply mkdir_existing.
  - by apply (mkdir_returns _ _ _ _ _ Hmk).
  - intros a parent ->. by apply (mkdir_leaves_parent _ _ _ _ Hmk).
Qed.

(** The three ways [init] ends: [mkdir] raises; the engine refuses the name,
    after the directory was made and the database opened; or it returns. *)
Lemma init_cases E dir name w :
  init E dir name w =
  match Fs.mkdir true true dir (files w) with
  | (Raise e, t') => (Raise e, set_files t' w)
  | (Ret _, t') =>
      if Chroma.valid_name E name then
        (Ret {| persist_directory := dir; collection_name := name;
                client := dir; collection := name |},
         world_after_init dir name t' w)
      else
        (Raise (ValueError ("Invalid collection name " +:+ name)),
         {| files := t'; disk := <[dir := database_at w dir]> (disk w) |})
  end.
Proof.
  destruct (Fs.mkdir true true dir (files w)) as [[[]|e] t'] eqn:Hmk.
  - destruct (Chroma.valid_name E name) eqn:Hv; [by apply init_run|].
    unfold init. rewrite run_bind. unfold on_files. rewrite Hmk.
    rewrite run_bind. unfold PersistentClient.
    rewrite run_bind. unfold on_client. cbn. rewrite lookup_insert_eq.
    unfold Chroma.get_or_create_collection.
    rewrite bind_get_or_create_collection.
    change (argument "name" _) with (VStr name). cbn. rewrite Hv.
    unfold set_disk. cbn. by rewrite insert_insert_eq.
  - unfold init. rewrite run_bind. unfold on_files. by rewrite Hmk.
Qed.

(** X17: opening the store again changes nothing.  When [init] has
    returned a manager, constructing a manager once more on the same
    directory and collection, in the world the first construction left,
    returns the same manager and leaves that world as it is: the directory
    is found, not made, and the collection is reused with its records. *)
Theorem init_again E dir name w m w' :
  init E dir name w = (Ret m, w') →
  init E dir name w' = (Ret m, w').
Proof.
  intros (Hv & t' & Hmk & -> & ->)%init_returns.
  rewrite (init_run E dir name _ t'); [|by apply (mkdir_twice dir (files w))|done].
  f_equal. unfold world_after_init, database_at. cbn.
  rewrite lookup_insert_eq. cbn. rewrite insert_insert_eq. do 2 f_equal.
  by rewrite (with_collection_present name _ _ (with_collection_lookup name _)).
Qed.

Lemma init_again_witness :
  init ListEngine.list_engine default_persist_directory default_collection_name
    (world stocked_state)
  = (Ret (self stocked_state), world stocked_state).
Proof.
  apply (init_again ListEngine.list_engine default_persist_directory
           default_collection_name (world stocked_state)).
  by vm_compute.
Defined.

(** X18: construction destroys nothing.  Whether [init] returns or
    raises, every file and directory that existed is still there, as what it
    was, and every collection that held records holds the same records. *)
Theorem init_keeps_everything E dir name w :
  files w ⊆ files (init E dir name w).2 ∧
  ∀ p c rs, contents w p c = Some rs →
            contents (init E dir name w).2 p c = Some rs.
Proof.
  rewrite init_cases. pose proof (mkdir_grows true true dir (files w)) as Hgrow.
  destruct (Fs.mkdir true true dir (files w)) as [[[]|e] t'] eqn:Hmk;
    cbn in Hgrow.
  - destruct (Chroma.valid_name E name) eqn:Hv; cbn.
    + split; [done|]. intros p c rs Hrs. rewrite contents_after_init.
      case_decide as Hpc; [|done]. destruct Hpc as [-> ->]. by rewrite Hrs.
    + split; [done|]. intros p c rs. unfold contents, database_at. cbn.
      destruct (decide (dir = p)) as [<-|Hp].
      * rewrite lookup_insert_eq. by destruct (disk w !! dir).
      * by rewrite lookup_insert_ne.
  - cbn. split; [done|]. done.
Qed.

(** X19: a refused name is noticed last.  When nothing is in the way of
    the directory and the engine refuses the collection name, [init] raises,
    but only after it has made the directory and opened the database: both
    are left behind, the database with the collections it had, none when it
    is new. *)
Theorem init_refused_name E dir name w :
  Fs.unobstructed (files w) dir →
  Chroma.valid_name E name = false →
  returns (init E dir name w).1 = false ∧
  Fs.is_dir (files (init E dir name w).2) dir = true ∧
  disk (init E dir name w).2 !! dir = Some (database_at w dir).
Proof.
  intros Hfree Hv. rewrite init_cases.
  destruct (mkdir_unobstructed dir (files w) Hfree) as (t' & -> & Hdir & _).
  rewrite Hv. cbn. split; [done|]. split; [done|]. apply lookup_insert_eq.
Qed.

Lemma init_refused_name_witness :
  returns (init ListEngine.list_engine ["chroma_db"; "data"] "ab"
             {| files := ∅; disk := ∅ |}).1 = false ∧
  Fs.is_dir (files (init ListEngine.list_engine ["chroma_db"; "data"] "ab"
                      {| files := ∅; disk := ∅ |}).2) ["chroma_db"; "data"] = true ∧
  disk (init ListEngine.list_engine ["chroma_db"; "data"] "ab"
          {| files := ∅; disk := ∅ |}).2 !! ["chroma_db"; "data"]
  = Some (database_at {| files := ∅; disk := ∅ |} ["chroma_db"; "data"]).
Proof.
  apply (init_refused_name ListEngine.list_engine ["chroma_db"; "data"] "ab"
           {| files := ∅; disk := ∅ |}).
  - simpl. by split.
  - reflexivity.
Defined.

(** X20: what a new manager counts.  Right after [init] has returned,
    [count_chunks] returns the number of records the collection held on disk
    before the construction, 0 when the collection or the database was not
    there. *)
Theorem count_after_init E dir name w m w' :
  init E dir name w = (Ret m, w') →
  count_chunks {| self := m; world := w' |}
  = (Ret (length (default [] (contents w dir name))), {| self := m; world := w' |}).
Proof.
  intros (Hm & _ & Hcontents & _)%init_constructed.
  apply count_chunks_usable. subst m. exact Hcontents.
Qed.

Lemma count_after_init_witness :
  count_chunks stocked_state
  = (Ret (length (default [] (contents (world stocked_state)
                                default_persist_directory default_collection_name))),
     stocked_state).
Proof.
  apply (count_after_init ListEngine.list_engine default_persist_directory
           default_collection_name (world stocked_state)
           (self stocked_state) (world stocked_state)).
  by vm_compute.
Defined.

(** ** What every method keeps *)

(** A method that writes, on a manager whose collection exists: the state is
    as before, or the collection holds what the body returned. *)
Lemma write_on_bound sg body kw st rs :
  bound_records st = Some rs →
  (on_self_collection (λ h, Chroma.write_method sg body h [] kw) st).2 = st ∨
  ∃ bound rs', body bound rs = Ret rs' ∧
    (on_self_collection (λ h, Chroma.write_method sg body h [] kw) st).2
    = store_records rs' st.
Proof.
  intros (db & Hd & Hc)%bound_records_Some.
  destruct (write_method_cases sg body (collection (self st)) [] kw db)
    as [Hsame|(bound & rs0 & rs' & _ & Hh & Hbody & Heq)].
  - left.
    destruct (Chroma.write_method sg body (collection (self st)) [] kw db)
      as [o db'] eqn:Hrun.
    cbn in Hsame. subst db'.
    by rewrite (on_self_collection_same _ _ db o Hd Hrun).
  - right. assert (rs0 = rs) as -> by congruence.
    exists bound, rs'. split; [done|].
    rewrite (on_self_collection_run _ _ db (Ret tt)
               (<[collection (self st) := rs']> db) Hd Heq).
    cbn. by apply store_records_run.
Qed.

Lemma usable_store_records E rs st : usable E st → usable E (store_records rs st).
Proof.
  intros ([rs0 Hrs] & Hname & Hvalid). split; [|done].
  apply bound_records_Some in Hrs as (db & Hd & _).
  rewrite bound_records_store; [by eexists|by eexists].
Qed.

Lemma usable_after_write E sg body kw st :
  usable E st →
  usable E (on_self_collection (λ h, Chroma.write_method sg body h [] kw) st).2.
Proof.
  intros Hu. pose proof Hu as ([rs Hrs] & _).
  destruct (write_on_bound sg body kw st rs Hrs) as [->|(bound & rs' & _ & ->)];
    [done|].
  by apply usable_store_records.
Qed.

Lemma usable_after_switch E name st :
  usable E st → Chroma.valid_name E name = true →
  usable E (switch_collection E name st).2.
Proof.
  intros ([rs Hrs] & _) Hv.
  apply bound_records_Some in Hrs as (db & Hd & _).
  rewrite switch_collection_run, Hd, Hv. cbn.
  split; [|by split].
  unfold bound_records. cbn. rewrite contents_set_disk, decide_True by done.
  rewrite with_collection_lookup. by eexists.
Qed.

Lemma usable_after E r st :
  usable E st → accepted E r → usable E (state_after E r st).
Proof.
  intros Hu Hacc. destruct r; lazy beta iota delta [state_after].
  - by destruct (add_chunks_refused E chunks embeddings metadatas ids st) as [e ->].
  - unfold query_similar.
    rewrite on_self_collection_reads; [done|]. intros. apply read_method_same.
  - unfold get_chunks_by_ids.
    rewrite on_self_collection_reads; [done|]. intros. apply read_method_same.
  - by apply usable_after_write.
  - unfold count_chunks.
    rewrite on_self_collection_reads; [done|]. intros. apply read_method_same.
  - by destruct (reset_collection_empties E st Hu) as (st' & -> & _ & _ & Hu').
  - unfold list_collections. rewrite on_self_client_reads; [done|].
    intros db. by rewrite client_list_collections_run.
  - by apply usable_after_switch.
  - by apply usable_after_write.
Qed.

(** X21: a usable manager stays usable.  From a manager whose client is
    open and whose collection exists under the name the manager keeps, any
    sequence of calls of its methods, returning or raising, leaves such a
    manager, as long as every [switch_collection] names a collection the
    engine accepts. *)
Theorem usable_is_kept E rs st :
  usable E st → Forall (accepted E) rs → usable E (state_after_all E rs st).
Proof.
  intros Hu Hacc. revert st Hu.
  induction Hacc as [|r rs Hr _ IH]; intros st Hu; simpl; [done|].
  apply IH. by apply usable_after.
Qed.

Lemma usable_is_kept_witness :
  usable ListEngine.list_engine
    (state_after_all ListEngine.list_engine
       [AddChunks ["The sky is blue."] [[1%Q; 0%Q]] None None;
        DeleteChunks ["chunk_0"];
        SwitchCollection "notes";
        UpdateChunkMetadata ["chunk_1"] [[("source", VStr "notes.txt")]];
        ResetCollection;
        CountChunks]
       stocked_state).
Proof.
  apply (usable_is_kept ListEngine.list_engine).
  - split; [by eexists|]. by split.
  - repeat constructor.
Defined.

(** ** What the methods that write leave alone *)

Lemma write_frame sg body kw st :
  self (on_self_collection (λ h, Chroma.write_method sg body h [] kw) st).2 = self st ∧
  files (world (on_self_collection (λ h, Chroma.write_method sg body h [] kw) st).2)
  = files (world st) ∧
  ∀ p c, ¬ (p = client (self st) ∧ c = collection (self st)) →
         contents (world (on_self_collection
                            (λ h, Chroma.write_method sg body h [] kw) st).2) p c
         = contents (world st) p c.
Proof.
  destruct (disk (world st) !! client (self st)) as [db|] eqn:Hd.
  - destruct (Chroma.write_method sg body (collection (self st)) [] kw db)
      as [o db'] eqn:Hrun.
    rewrite (on_self_collection_run _ _ db o db' Hd Hrun). cbn.
    split; [done|]. split; [done|]. intros p c Hpc.
    rewrite contents_set_disk. case_decide as Hp; [|done]. subst p.
    destruct (write_method_cases sg body (collection (self st)) [] kw db)
      as [Hsame|(bound & rs0 & rs' & _ & _ & _ & Heq)].
    + rewrite Hrun in Hsame. cbn in Hsame. subst db'. unfold contents.
      by rewrite Hd.
    + rewrite Hrun in Heq. injection Heq as _ ->.
      rewrite lookup_insert_ne by (intros <-; by apply Hpc).
      unfold contents. by rewrite Hd.
  - destruct (on_self_collection_closed
                (λ h, Chroma.write_method sg body h [] kw) st Hd) as [e ->].
    done.
Qed.

(** X22: [delete_chunks] and [update_chunk_metadata] write to the
    collection the manager is bound to and to nothing else: whatever the
    engine does with the records and whatever the outcome, the manager, the
    files and every other collection, of this client and of any other
    directory, are as before. *)
Theorem writes_touch_one_collection E st :
  (∀ ids,
     self (delete_chunks E ids st).2 = self st ∧
     files (world (delete_chunks E ids st).2) = files (world st) ∧
     ∀ p c, ¬ (p = client (self st) ∧ c = collection (self st)) →
            contents (world (delete_chunks E ids st).2) p c
            = contents (world st) p c) ∧
  (∀ ids metadatas,
     self (update_chunk_metadata E ids metadatas st).2 = self st ∧
     files (world (update_chunk_metadata E ids metadatas st).2) = files (world st) ∧
     ∀ p c, ¬ (p = client (self st) ∧ c = collection (self st)) →
            contents (world (update_chunk_metadata E ids metadatas st).2) p c
            = contents (world st) p c).
Proof.
  split.
  - intros ids. apply (write_frame Chroma.delete_sig (Chroma.coll_delete E)).
  - intros ids metadatas.
    apply (write_frame Chroma.update_sig (Chroma.coll_update E)).
Qed.

(** ** Nothing is ever added *)

Lemma shrinks_after E r st rs :
  delete_only_removes E →
  usable E st → bound_records st = Some rs → keeps_to_the_collection r →
  ∃ rs', bound_records (state_after E r st) = Some rs' ∧ rs' `sublist_of` rs.
Proof.
  intros Hdel Hu Hrs Hr. destruct r; lazy beta iota delta [state_after]; try done.
  - destruct (add_chunks_refused E chunks embeddings metadatas ids st) as [e ->].
    by exists rs.
  - unfold query_similar. rewrite on_self_collection_reads; [by exists rs|].
    intros. apply read_method_same.
  - unfold get_chunks_by_ids. rewrite on_self_collection_reads; [by exists rs|].
    intros. apply read_method_same.
  - unfold delete_chunks, Chroma.delete.
    destruct (write_on_bound Chroma.delete_sig (Chroma.coll_delete E)
                [("ids", VList (VStr <$> ids))] st rs Hrs)
      as [->|(bound & rs' & Hbody & ->)]; [by exists rs|].
    exists rs'. split; [|by eapply Hdel].
    apply bound_records_store.
    apply bound_records_Some in Hrs as (db & Hd & _). by eexists.
  - unfold count_chunks. rewrite on_self_collection_reads; [by exists rs|].
    intros. apply read_method_same.
  - destruct (reset_collection_empties E st Hu) as (st' & -> & _ & Hempty & _).
    exists []. split; [done|]. apply sublist_nil_l.
  - unfold list_collections. rewrite on_self_client_reads; [by exists rs|].
    intros db. by rewrite client_list_collections_run.
Qed.

Lemma keeps_to_the_collection_accepted E r :
  keeps_to_the_collection r → accepted E r.
Proof. by destruct r. Qed.

(** X23: the collection never gains a record.  From a usable manager, and
    for every engine whose [delete] only removes records, after any sequence
    of calls of [add_chunks], [delete_chunks], [reset_collection] and the
    methods that read, the records of the collection are among the records
    it had, in the order they had: nothing was added, by [add_chunks] or
    otherwise. *)
Theorem nothing_is_ever_added E requests st rs :
  delete_only_removes E →
  usable E st →
  bound_records st = Some rs →
  Forall keeps_to_the_collection requests →
  ∃ rs', bound_records (state_after_all E requests st) = Some rs' ∧
         rs' `sublist_of` rs.
Proof.
  intros Hdel Hu Hrs Hall. revert st rs Hu Hrs.
  induction Hall as [|r requests Hr _ IH]; intros st rs Hu Hrs; simpl.
  - by exists rs.
  - destruct (shrinks_after E r st rs Hdel Hu Hrs Hr) as (rs1 & Hrs1 & Hsub1).
    destruct (IH (state_after E r st) rs1) as (rs2 & Hrs2 & Hsub2); [|done|].
    + apply usable_after; [done|]. by apply keeps_to_the_collection_accepted.
    + exists rs2. split; [done|]. by etrans.
Qed.

Lemma nothing_is_ever_added_witness :
  ∃ rs', bound_records
           (state_after_all ListEngine.list_engine
              [AddChunks ["The Eiffel Tower is in Paris."] [[1%Q; 1%Q]] None None;
               CountChunks;
               DeleteChunks ["chunk_0"];
               AddChunks ["The sky is blue."] [[1%Q; 0%Q]] None (Some ["sky"])]
              stocked_state) = Some rs' ∧
         rs' `sublist_of` two_chunks.
Proof.
  apply (nothing_is_ever_added ListEngine.list_engine).
  - exact list_engine_delete_only_removes.
  - split; [by eexists|]. by split.
  - reflexivity.
  - repeat constructor.
Defined.

(** ** Ids numbered from the size, after a deletion *)







(** ** The id [add_chunks] assigns after a deletion *)



